(** * search-and-analyze: the scraper service (src/scraper/scraper.py)

    A shallow embedding of the scraping pipeline: the text cleaner and the
    quality gate, the article extractor, the chain of fetch strategies, the
    persistence layer (PostgreSQL table [scraped_results], Redis markers and
    answer cache) and the [/scrape] endpoint.

    Text is a list of characters.  A character is a code point below 256
    ([ascii]); Python's [str] methods are embedded with the behaviour they
    have on such code points. *)

From Stdlib Require Import Ascii String List ZArith Lia Bool.
From stdpp Require Import gmap strings list.

Local Open Scope Z_scope.
Local Open Scope list_scope.

(** ** Python [str] methods *)

Module PyStr.

Abbreviation text := (list ascii).

Definition txt (s : string) : text := list_ascii_of_string s.

Definition LF : ascii := ascii_of_nat 10.
Definition CR : ascii := ascii_of_nat 13.

Definition code (c : ascii) : N := N_of_ascii c.

Definition between (lo hi n : N) : bool := ((lo <=? n) && (n <=? hi))%N.

(** [str.isspace] on one character: TAB LF VT FF CR, FS GS RS US, SPACE,
    NEL (0x85) and NBSP (0xA0). *)
Definition is_space (c : ascii) : bool :=
  between 9 13 (code c) || between 28 32 (code c)
  || (code c =? 133)%N || (code c =? 160)%N.

(** The line boundaries of [str.splitlines]: LF VT FF CR, FS GS RS, NEL. *)
Definition is_linebreak (c : ascii) : bool :=
  between 10 13 (code c) || between 28 30 (code c) || (code c =? 133)%N.

(** [str.lower] on one character: A-Z, and the Latin-1 capitals 0xC0-0xDE
    except the multiplication sign 0xD7. *)
Definition lower_char (c : ascii) : ascii :=
  let n := code c in
  if between 65 90 n || (between 192 222 n && negb (n =? 215)%N)
  then ascii_of_N (n + 32) else c.

Definition lower (s : text) : text := map lower_char s.

(** [s.startswith(p)] *)
Fixpoint startswith (s p : text) : bool :=
  match p, s with
  | [], _ => true
  | _ :: _, [] => false
  | x :: p', c :: s' => Ascii.eqb x c && startswith s' p'
  end.

(** [p in s], which is also [re.search(p, s)] for a pattern [p] without
    regular-expression metacharacters. *)
Fixpoint contains (p s : text) : bool :=
  startswith s p ||
  match s with
  | [] => false
  | _ :: s' => contains p s'
  end.

(** [s.split()]: the maximal runs of non-whitespace characters. *)
Definition at_word_end (s : text) : bool :=
  match s with
  | [] => true
  | d :: _ => is_space d
  end.

Fixpoint split (s : text) : list text :=
  match s with
  | [] => []
  | c :: s' =>
      if is_space c then split s'
      else if at_word_end s' then [c] :: split s'
      else match split s' with
           | [] => [[c]]
           | w :: ws => (c :: w) :: ws
           end
  end.

(** [s.splitlines()]: CR LF counts as one boundary, and a boundary at the very
    end does not open a further, empty, line. *)
Fixpoint splitlines (s : text) : list text :=
  match s with
  | [] => []
  | c :: s' =>
      if is_linebreak c then
        [] :: match s' with
              | d :: s'' =>
                  if Ascii.eqb c CR && Ascii.eqb d LF
                  then splitlines s'' else splitlines s'
              | [] => []
              end
      else match splitlines s' with
           | [] => [[c]]
           | l :: ls => (c :: l) :: ls
           end
  end.

(** ["\n".join(ls)] *)
Fixpoint join (ls : list text) : text :=
  match ls with
  | [] => []
  | [l] => l
  | l :: rest => l ++ LF :: join rest
  end.

(** [s.lstrip()], [s.rstrip()], [s.strip()] *)
Fixpoint lstrip (s : text) : text :=
  match s with
  | [] => []
  | c :: s' => if is_space c then lstrip s' else s
  end.

Fixpoint rstrip (s : text) : text :=
  match s with
  | [] => []
  | c :: s' =>
      match rstrip s' with
      | [] => if is_space c then [] else [c]
      | r => c :: r
      end
  end.

Definition strip (s : text) : text := rstrip (lstrip s).

End PyStr.

Import PyStr.

(** ** Cleaning helpers (lines 75-102) *)

Definition cookie_patterns : list text :=
  map txt ["we use cookies"; "cookie policy"; "accept all"; "reject all";
           "gdpr"; "privacy settings"]%string.

Definition nav_phrases : list text :=
  map txt ["log in"; "sign up"; "menu"; "what can i help with"]%string.

(** The condition under which [remove_cookie_banners] skips a line. *)
Definition is_cookie_line (line : text) : bool :=
  let lw := lower line in
  (length (split line) <? 15)%nat
  && existsb (fun pat => contains pat lw) cookie_patterns.

(** The condition under which [remove_navigation] skips a line. *)
Definition is_nav_line (line : text) : bool :=
  let lw := strip (lower line) in
  existsb (fun phrase => contains phrase lw) nav_phrases
  && (length (split lw) <=? 5)%nat.

Definition remove_cookie_banners (t : text) : text :=
  join (List.filter (fun line => negb (is_cookie_line line)) (splitlines t)).

Definition remove_navigation (t : text) : text :=
  join (List.filter (fun line => negb (is_nav_line line)) (splitlines t)).

Definition clean_extracted_text (t : text) : text :=
  strip (remove_navigation (remove_cookie_banners t)).

Definition is_valid_content_min (t : text) (min_words : nat) : bool :=
  let words := split t in
  (min_words <=? length words)%nat
  && negb (startswith (lower t) (txt "we use cookies")
           || startswith (lower t) (txt "cookie policy")).

(** [is_valid_content(text)] with the default [min_words=50]. *)
Definition is_valid_content (t : text) : bool := is_valid_content_min t 50.

(** ** Auxiliary notions for reasoning about text *)

Definition all_space (s : text) : bool := forallb is_space s.

Definition break_free (s : text) : bool :=
  forallb (fun c => negb (is_linebreak c)) s.

(** What [lstrip] returns is empty or starts with a character that is not
    whitespace. *)
Definition starts_solid (s : text) : Prop :=
  match s with
  | [] => True
  | c :: _ => is_space c = false
  end.

(** A phrase that starts, respectively ends, with a character that is not
    whitespace. *)
Definition head_solid (p : text) : bool :=
  match p with
  | [] => false
  | x :: _ => negb (is_space x)
  end.

Fixpoint ends_solid (p : text) : bool :=
  match p with
  | [] => true
  | [x] => negb (is_space x)
  | _ :: p' => ends_solid p'
  end.

(** What [splitlines] continues with after a boundary character [c]. *)
Definition after_break (c : ascii) (s : text) : text :=
  match s with
  | d :: s' => if Ascii.eqb c CR && Ascii.eqb d LF then s' else s
  | [] => []
  end.

(** [splitlines] after [join] gives the lines back, except for an empty
    line at the very end. *)
Fixpoint drop_last_empty (ls : list text) : list text :=
  match ls with
  | [] => []
  | [l] => match l with [] => [] | _ => [l] end
  | l :: rest => l :: drop_last_empty rest
  end.

(** The lines of a joined text after [lstrip], after [rstrip]. *)
Fixpoint ltrim (ls : list text) : list text :=
  match ls with
  | [] => []
  | l :: rest => if all_space l then ltrim rest else lstrip l :: rest
  end.

Fixpoint rtrim (ls : list text) : list text :=
  match ls with
  | [] => []
  | l :: rest =>
      match rtrim rest with
      | [] => if all_space l then [] else [rstrip l]
      | r => l :: r
      end
  end.

(** A line that both filters keep. *)
Definition kept (l : text) : Prop :=
  is_cookie_line l = false /\ is_nav_line l = false.

Definition keep_cookie (line : text) : bool := negb (is_cookie_line line).
Definition keep_nav (line : text) : bool := negb (is_nav_line line).

(** The lines that survive the cookie filter and then the navigation
    filter. *)
Definition surviving_lines (t : text) : list text :=
  List.filter keep_nav (List.filter keep_cookie (splitlines t)).

(** ** The world outside the service *)

(** The three scraping strategies (lines 105-116). *)
Inductive Strategy :=
| strategy_requests
| strategy_cloudscraper
| strategy_requests_html.

(** One result object of the SearXNG answer.  [None] is an absent key. *)
Record SearchResult := {
  res_url : option text;
  res_title : option text;
  res_content : option text;
  res_engine : option text;
}.

(** A row of the table [scraped_results] (lines 43-54).  The columns [id]
    and [created_at] are filled in by the database and read nowhere. *)
Record ScrapedResult := {
  query : text;
  title : text;
  url : option text;
  description : text;
  engine_name : text;
  searxng_json : SearchResult;
  extracted_content : text;
  embedding : text;
}.

(** Everything the service does not decide itself.  Time is in seconds; what
    a network call answers may depend on when it is made.  [None] stands for
    a raised exception. *)
Record World := {
  HAS_REQUESTS_HTML : bool;
  (** the SearXNG request, with [raise_for_status] and JSON decoding *)
  searxng : Z -> text -> option (list SearchResult);
  (** [strat(url)]: the HTML a strategy gets *)
  http_get : Strategy -> Z -> text -> option text;
  (** the seconds a network call started at the given time takes *)
  latency : Z -> nat;
  (** [Document(html).summary()] turned to text by BeautifulSoup *)
  readability_text : text -> option text;
  (** [BeautifulSoup(html, "lxml").get_text(separator='\n', strip=True)] *)
  full_page_text : text -> option text;
  (** [compute_embedding(text)]: a random placeholder vector, as JSON *)
  compute_embedding : Z -> text -> text;
  (** whether PostgreSQL is able to take a write at the given time *)
  db_available : Z -> bool;
}.

Inductive Event :=
| EvSearch (q : text)
| EvFetch (strat : Strategy) (u : text)
| EvSleep (secs : Z)
| EvRedisExists (key : text)
| EvRedisGet (key : text)
| EvRedisSet (key : text) (ttl : Z)
| EvDbSelect
| EvDbInsert (u : option text) (committed : bool).

(** The table, the Redis keys with their value and expiry time, the clock,
    and the calls made so far, oldest first. *)
Record State := {
  db : list ScrapedResult;
  redis : gmap text (text * Z);
  now : Z;
  trace : list Event;
}.

(** ** A state monad for the service *)

Definition M (A : Type) : Type := State -> A * State.

#[global] Instance M_ret : MRet M := fun A (a : A) s => (a, s).

#[global] Instance M_bind : MBind M :=
  fun A B (f : A -> M B) (m : M A) s => let (a, s') := m s in f a s'.

Definition emit (e : Event) : M unit := fun s =>
  (tt, {| db := db s; redis := redis s; now := now s;
          trace := trace s ++ [e] |}).

Definition elapse (secs : Z) : M unit := fun s =>
  (tt, {| db := db s; redis := redis s; now := now s + secs;
          trace := trace s |}).

Fixpoint for_each {A} (body : A -> M unit) (l : list A) : M unit :=
  match l with
  | [] => mret tt
  | x :: l' => body x ;; for_each body l'
  end.

(** [time.sleep(secs)] *)
Definition sleep (secs : Z) : M unit := emit (EvSleep secs) ;; elapse secs.

(** ** Redis *)

(** The value a key holds at time [t], if it has not expired. *)
Definition redis_live (r : gmap text (text * Z)) (t : Z) (key : text)
  : option text :=
  match r !! key with
  | Some (v, expiry) => if t <? expiry then Some v else None
  | None => None
  end.

Definition redis_exists (key : text) : M bool := fun s =>
  (bool_decide (is_Some (redis_live (redis s) (now s) key)),
   snd (emit (EvRedisExists key) s)).

Definition redis_get (key : text) : M (option text) := fun s =>
  (redis_live (redis s) (now s) key, snd (emit (EvRedisGet key) s)).

(** [redis_client.set(key, value, ex=ttl)] and [setex(key, ttl, value)] *)
Definition redis_set (key value : text) (ttl : Z) : M unit := fun s =>
  emit (EvRedisSet key ttl)
    {| db := db s; redis := <[key := (value, now s + ttl)]> (redis s);
       now := now s; trace := trace s |}.

Definition scraped_key (u : text) : text := txt "scraped:" ++ u.
Definition results_key (q : text) : text := txt "results:" ++ q.

(** ** Extraction and the chain of strategies (lines 118-146) *)

Definition word_count (t : text) : nat := length (split t).

Definition extract_article (w : World) (html : text) : option text :=
  let content :=
    match readability_text w html with
    | Some c => c
    | None => []
    end in
  if (word_count content <? 50)%nat
  then clean_extracted_text <$> full_page_text w html
  else Some (clean_extracted_text content).

Definition strategies (w : World) : list Strategy :=
  [strategy_requests; strategy_cloudscraper]
  ++ (if HAS_REQUESTS_HTML w then [strategy_requests_html] else []).

Definition FAILED : text := txt "Failed to extract valid content.".

(** [html = strat(url)] *)
Definition fetch (w : World) (strat : Strategy) (u : text) : M (option text) :=
  fun s =>
    (http_get w strat (now s) u,
     snd ((emit (EvFetch strat u) ;; elapse (Z.of_nat (latency w (now s)))) s)).

(** The body of the [try] block in [try_scrape]: the article when the
    strategy got one that passes [is_valid_content], [None] when the
    strategy or the extraction raised or the article is not valid. *)
Definition attempt (w : World) (strat : Strategy) (u : text) : M (option text) :=
  html ← fetch w strat u;
  mret (match html ≫= extract_article w with
        | Some article => if is_valid_content article then Some article else None
        | None => None
        end).

Fixpoint try_strategies (w : World) (u : text) (strats : list Strategy) : M text :=
  match strats with
  | [] => mret FAILED
  | strat :: rest =>
      r ← attempt w strat u;
      match r with
      | Some article => mret article
      | None => sleep 1 ;; try_strategies w u rest
      end
  end.

Definition try_scrape (w : World) (u : text) : M text :=
  try_strategies w u (strategies w).

(** ** Persistence (lines 149-182) *)

(** The URLs in the table; the column is nullable. *)
Definition db_urls (rows : list ScrapedResult) : list text := omap url rows.

Definition new_row (w : World) (t : Z) (q : text) (result : SearchResult)
    (scraped_content : text) : ScrapedResult :=
  {| query := q;
     title := take 500 (default (txt "No Title") (res_title result));
     url := res_url result;
     description := take 1000 (default (txt "No Description") (res_content result));
     engine_name := default (txt "Unknown") (res_engine result);
     searxng_json := result;
     extracted_content := take (N.to_nat 10000) scraped_content;
     embedding := compute_embedding w t scraped_content |}.

(** Whether [db_session.commit()] goes through: the database is reachable
    and the UNIQUE constraint on [url] holds with the new row. *)
Definition commit_ok (w : World) (s : State) (row : ScrapedResult) : bool :=
  db_available w (now s)
  && match url row with
     | Some u => negb (bool_decide (u ∈ db_urls (db s)))
     | None => true
     end.

(** What [f"scraped:{new_result.url}"] formats a NULL url to. *)
Definition url_str (u : option text) : text := default (txt "None") u.

Definition persist_result (w : World) (q : text) (result : SearchResult)
    (scraped_content : text) : M unit := fun s =>
  let row := new_row w (now s) q result scraped_content in
  if commit_ok w s row then
    (emit (EvDbInsert (url row) true) ;;
     redis_set (scraped_key (url_str (url row))) (txt "1") 86400)
      {| db := db s ++ [row]; redis := redis s; now := now s; trace := trace s |}
  else
    (* rollback: the row is not stored, the error is logged *)
    emit (EvDbInsert (url row) false) s.

(** [SELECT url ... WHERE url IN (urls)], as a Python set *)
Definition get_existing_urls (urls : list text) : M (gset text) := fun s =>
  (list_to_set (List.filter (fun u => bool_decide (u ∈ urls)) (db_urls (db s))),
   snd (emit EvDbSelect s)).

(** The Python set [unique_lines] that [compress_results] fills. *)
Definition unique_lines (results : list ScrapedResult) : gset text :=
  foldl (fun acc r => acc ∪ list_to_set (splitlines (extracted_content r)))
        ∅ results.

(** [compress_results]: the lines of the set, joined in the order in which
    the set enumerates them. *)
Definition compress_results (results : list ScrapedResult) : text :=
  join (elements (unique_lines results)).

(** ** The core loop (lines 185-214) *)

(** [res.get("url")] when it is truthy. *)
Definition truthy_url (result : SearchResult) : option text :=
  match res_url result with
  | Some (c :: u) => Some (c :: u)
  | _ => None
  end.

(** One round of the loop over [results]. *)
Definition process_result (w : World) (q : text) (existing_urls : gset text)
    (result : SearchResult) : M unit :=
  match truthy_url result with
  | None => mret tt
  | Some u =>
      seen ← redis_exists (scraped_key u);
      if seen || bool_decide (u ∈ existing_urls) then mret tt
      else
        content ← try_scrape w u;
        (if negb (contains (txt "Failed") content)
         then persist_result w q result content ;;
              redis_set (scraped_key u) (txt "1") 86400
         else mret tt) ;;
        sleep 1
  end.

Definition search (w : World) (q : text) : M (option (list SearchResult)) :=
  fun s =>
    (searxng w (now s) q,
     snd ((emit (EvSearch q) ;; elapse (Z.of_nat (latency w (now s)))) s)).

Definition search_and_scrape (w : World) (q : text) : M unit :=
  r ← search w q;
  match r with
  | None => mret tt
  | Some results =>
      existing_urls ← get_existing_urls (omap truthy_url results);
      for_each (process_result w q existing_urls) results
  end.

(** ** The endpoint [/scrape] (lines 217-238) *)

Definition PERCENT : ascii := ascii_of_nat 37.
Definition UNDERSCORE : ascii := ascii_of_nat 95.
Definition BACKSLASH : ascii := ascii_of_nat 92.

(** SQL [LIKE]: [%] stands for any run of characters, [_] for any one
    character, and a backslash takes the character after it literally. *)
Fixpoint like (p : text) : text -> bool :=
  match p with
  | [] => fun v => match v with [] => true | _ :: _ => false end
  | c :: p' =>
      if Ascii.eqb c PERCENT then
        fix any (v : text) : bool :=
          like p' v || match v with [] => false | _ :: v' => any v' end
      else if Ascii.eqb c UNDERSCORE then
        fun v => match v with [] => false | _ :: v' => like p' v' end
      else if Ascii.eqb c BACKSLASH then
        match p' with
        | [] => fun _ => false
        | e :: p'' =>
            fun v => match v with
                     | [] => false
                     | d :: v' => Ascii.eqb e d && like p'' v'
                     end
        end
      else
        fun v => match v with
                 | [] => false
                 | d :: v' => Ascii.eqb c d && like p' v'
                 end
  end.

(** [ScrapedResult.query.ilike(pattern)] *)
Definition ilike (pattern value : text) : bool :=
  like (lower pattern) (lower value).

Definition select_ilike (pattern : text) : M (list ScrapedResult) := fun s =>
  (List.filter (fun r => ilike pattern (query r)) (db s),
   snd (emit EvDbSelect s)).

Inductive Response :=
| Ok200 (q data : text)
| Err400.

(** Lines 228-238: what the endpoint does when the cache has no answer. *)
Definition fresh_answer (w : World) (query : text) : M Response :=
  search_and_scrape w query ;;
  results ← select_ilike (PERCENT :: query ++ [PERCENT]);
  let compressed := compress_results results in
  (match compressed with
   | [] => mret tt
   | _ :: _ => redis_set (results_key query) compressed 300
   end) ;;
  mret (Ok200 query compressed).

(** [q] is [request.args.get("q")]: [None] when the parameter is missing. *)
Definition scrape_query (w : World) (q : option text) : M Response :=
  let query := strip (default [] q) in
  match query with
  | [] => mret Err400
  | _ :: _ =>
      cached ← redis_get (results_key query);
      match cached with
      | Some (c :: data) => mret (Ok200 query (c :: data))
      | _ => fresh_answer w query
      end
  end.

(** Requests served one after the other, each arriving some seconds after
    the one before is answered. *)
Fixpoint serve (w : World) (requests : list (nat * option text))
  : M (list Response) :=
  match requests with
  | [] => mret []
  | (delay, q) :: rest =>
      elapse (Z.of_nat delay) ;;
      r ← scrape_query w q;
      rs ← serve w rest;
      mret (r :: rs)
  end.

(** ** Notions used to state what the pipeline does *)

(** The table obeys the UNIQUE constraint on [url]. *)
Definition db_unique (rows : list ScrapedResult) : Prop := NoDup (db_urls rows).

(** The rows stored for URL [u]. *)
Definition rows_of (u : text) (rows : list ScrapedResult) : list ScrapedResult :=
  List.filter (fun r => bool_decide (url r = Some u)) rows.

Definition anything (_ : text) : Prop := True.

(** The strategies that were run on URL [u], in the order of the calls. *)
Definition fetches_of (u : text) (evs : list Event) : list Strategy :=
  omap (fun e => match e with
                 | EvFetch strat x => if bool_decide (x = u) then Some strat else None
                 | _ => None
                 end) evs.

(** What a piece of the pipeline may do to the state when it may only write
    Redis keys in [K] and only fetch URLs in [F]: the clock does not go back,
    the table only grows and stays unique, the trace only grows. *)
Record frame (K F : text -> Prop) (s s' : State) : Prop := {
  fr_now : now s <= now s';
  fr_redis : forall k, ~ K k -> redis s' !! k = redis s !! k;
  fr_trace : exists evs, trace s' = trace s ++ evs
               /\ Forall (fun e => forall strat x, e = EvFetch strat x -> F x) evs;
  fr_db : exists rows, db s' = db s ++ rows
            /\ Forall (fun r => forall x, url r = Some x -> F x) rows;
  fr_unique : db_unique (db s) -> db_unique (db s');
}.

Definition respects (R : State -> State -> Prop) {A} (m : M A) : Prop :=
  forall s, R s (snd (m s)).

(** The strategies in [strats] are tried on [u] one after the other from
    state [s], each fails, and the pause after the last one ends in [s']. *)
Inductive all_fail (w : World) (u : text) : list Strategy -> State -> State -> Prop :=
| all_fail_nil s : all_fail w u [] s s
| all_fail_cons strat rest s s1 s' :
    attempt w strat u s = (None, s1) ->
    all_fail w u rest (snd (sleep 1 s1)) s' ->
    all_fail w u (strat :: rest) s s'.

(** [p] occurs in [s]; [s] begins with [p]. *)
Definition occurs_in (p s : text) : Prop := exists a b, s = a ++ p ++ b.
Definition begins_with (p s : text) : Prop := exists r, s = p ++ r.

(** [n] copies of [t] in a row. *)
Definition repeated (n : nat) (t : text) : text := concat (repeat t n).

(** URL [u] carries a marker that has not expired by time [t]. *)
Definition marked_until (s : State) (u : text) (t : Z) : Prop :=
  exists v expiry, redis s !! scraped_key u = Some (v, expiry) /\ t < expiry.

(** ** The cleaner read from the specification

    Following the words of the specification ("the remaining lines
    rejoined with the original line separator"): every line is kept together
    with the boundary that ended it in the input. *)

Fixpoint splitlines_keepends (s : text) : list (text * text) :=
  match s with
  | [] => []
  | c :: s' =>
      if is_linebreak c then
        match s' with
        | d :: s'' =>
            if Ascii.eqb c CR && Ascii.eqb d LF
            then ([], [c; d]) :: splitlines_keepends s''
            else ([], [c]) :: splitlines_keepends s'
        | [] => [([], [c])]
        end
      else match splitlines_keepends s' with
           | [] => [([c], [])]
           | (l, sep) :: ls => (c :: l, sep) :: ls
           end
  end.

Definition clean_keeping_separators (t : text) : text :=
  strip (concat (map (fun l => fst l ++ snd l)
    (List.filter (fun l => keep_nav (fst l))
       (List.filter (fun l => keep_cookie (fst l)) (splitlines_keepends t))))).

(** The rows whose query field contains [q], whatever the case of the
    letters: the selection the specification describes. *)
Definition select_substring (q : text) (rows : list ScrapedResult)
  : list ScrapedResult :=
  List.filter (fun r => contains (lower q) (lower (query r))) rows.

(** ** Example worlds and states *)

Definition lorem60 : text := repeated 60 (txt "lorem ").

Definition url_a : text := txt "http://a.example/".

Definition result_a : SearchResult :=
  {| res_url := Some url_a; res_title := Some (txt "A");
     res_content := Some (txt "about a"); res_engine := Some (txt "bing") |}.

Definition empty_state : State :=
  {| db := []; redis := ∅; now := 0; trace := [] |}.

(** SearXNG answers with the one result [result_a]; the page text is the
    HTML itself; plain [requests] gets a page of one word, cloudscraper the
    page [page]. *)
Definition world_with (page : text) : World :=
  {| HAS_REQUESTS_HTML := true;
     searxng := fun _ _ => Some [result_a];
     http_get := fun strat _ _ =>
       match strat with
       | strategy_requests => Some (txt "blocked")
       | _ => Some page
       end;
     latency := fun _ => 2%nat;
     readability_text := fun _ => None;
     full_page_text := fun html => Some html;
     compute_embedding := fun _ _ => txt "[0.1]";
     db_available := fun _ => true |}.

Definition lorem_world : World := world_with lorem60.

(** A page whose article passes the quality gate and has the word
    "Failed" in it. *)
Definition failed_page : text := txt "Failed " ++ lorem60.
Definition failed_world : World := world_with failed_page.

(** A world in which readability returns the page as it is and the text of
    the whole page is marked as such. *)
Definition readable_world : World :=
  {| HAS_REQUESTS_HTML := false;
     searxng := fun _ _ => Some [];
     http_get := fun _ _ _ => None;
     latency := fun _ => 0%nat;
     readability_text := fun html => Some html;
     full_page_text := fun html => Some (txt "whole page: " ++ html);
     compute_embedding := fun _ _ => [];
     db_available := fun _ => true |}.

(** A world in which SearXNG is down. *)
Definition offline_world : World :=
  {| HAS_REQUESTS_HTML := false;
     searxng := fun _ _ => None;
     http_get := fun _ _ _ => None;
     latency := fun _ => 0%nat;
     readability_text := fun _ => None;
     full_page_text := fun html => Some html;
     compute_embedding := fun _ _ => [];
     db_available := fun _ => true |}.

Definition row_of (q u content : text) : ScrapedResult :=
  {| query := q; title := txt "T"; url := Some u; description := [];
     engine_name := txt "bing"; searxng_json := result_a;
     extracted_content := content; embedding := [] |}.

(** A table that already holds a row for [url_a] and no Redis key. *)
Definition seen_state : State :=
  {| db := [row_of (txt "cats") url_a (txt "old")]; redis := ∅;
     now := 100; trace := [] |}.

(** A table with one row stored for the query "abc". *)
Definition abc_state : State :=
  {| db := [row_of (txt "abc") url_a (txt "X")]; redis := ∅;
     now := 0; trace := [] |}.

(** Two rows with overlapping lines. *)
Definition hello_state : State :=
  {| db := [row_of (txt "greet") url_a (txt "Hello" ++ LF :: txt "World");
            row_of (txt "greet") (txt "http://b.example/")
                   (txt "World" ++ LF :: txt "Foo")];
     redis := ∅; now := 0; trace := [] |}.

(** The world [lorem_world] with PostgreSQL unreachable. *)
Definition db_down_world : World :=
  {| HAS_REQUESTS_HTML := HAS_REQUESTS_HTML lorem_world;
     searxng := searxng lorem_world;
     http_get := http_get lorem_world;
     latency := latency lorem_world;
     readability_text := readability_text lorem_world;
     full_page_text := full_page_text lorem_world;
     compute_embedding := compute_embedding lorem_world;
     db_available := fun _ => false |}.

(** A query without the metacharacters of [LIKE]. *)
Definition plain_char (c : ascii) : bool :=
  negb (Ascii.eqb c PERCENT || Ascii.eqb c UNDERSCORE || Ascii.eqb c BACKSLASH).

Definition plain (q : text) : bool := forallb plain_char q.

(** ** The endpoint [/results] (lines 240-250) *)

(** One object of the JSON list the endpoint answers with. *)
Record ResultView := {
  view_title : text;
  view_url : option text;
  view_content : text;
}.

(** [r.extracted_content[:500] + "..." if len(r.extracted_content) > 500
    else r.extracted_content] *)
Definition preview (content : text) : text :=
  if (500 <? length content)%nat then take 500 content ++ txt "..." else content.

Definition view_row (r : ScrapedResult) : ResultView :=
  {| view_title := title r; view_url := url r;
     view_content := preview (extracted_content r) |}.

(** [query(ScrapedResult).filter(query.ilike(pattern)).limit(n).all()] *)
Definition select_ilike_limit (pattern : text) (n : nat)
  : M (list ScrapedResult) := fun s =>
  (take n (List.filter (fun r => ilike pattern (query r)) (db s)),
   snd (emit EvDbSelect s)).

(** [q] is [request.args.get("q")]; the default is the empty string and the
    parameter is not trimmed. *)
Definition get_results (q : option text) : M (list ResultView) :=
  let query := default [] q in
  results ← select_ilike_limit (PERCENT :: query ++ [PERCENT]) 50;
  mret (view_row <$> results).

(** ** Further notions *)

(** The only line boundary in the text is the line feed. *)
Definition lf_only (t : text) : Prop :=
  Forall (fun c => is_linebreak c = true -> c = LF) t.

(** The text neither starts nor ends with whitespace. *)
Definition trimmed (t : text) : Prop := strip t = t.

(** The URLs of the candidates that have one. *)
Definition candidates (results : list SearchResult) : list text :=
  omap truthy_url results.

(** The Redis keys of the markers of the URLs in [urls]. *)
Definition marker_key_of (urls : list text) (k : text) : Prop :=
  exists u, u ∈ urls /\ k = scraped_key u.

Definition has_no_backslash (q : text) : bool :=
  forallb (fun c => negb (Ascii.eqb c BACKSLASH)) q.

(** A step that leaves the table and Redis alone and does not turn the clock
    back. *)
Definition same_stores (s s' : State) : Prop :=
  db s' = db s /\ redis s' = redis s /\ now s <= now s'.

(** A step that leaves the table alone. *)
Definition same_db (s s' : State) : Prop := db s' = db s.

(** A step that only appends rows, all of them with the property [P]. *)
Definition stores_rows (P : ScrapedResult -> Prop) (s s' : State) : Prop :=
  exists rows, db s' = db s ++ rows /\ Forall P rows.

(** ** The string methods on examples *)

Example splitlines_mixed :
  splitlines (txt "ab" ++ [CR; LF] ++ txt "c" ++ [LF; LF] ++ txt "d" ++ [LF])
  = [txt "ab"; txt "c"; []; txt "d"].
Proof. reflexivity. Qed.

Example split_runs : split (txt "  ab  c d ") = [txt "ab"; txt "c"; txt "d"].
Proof. reflexivity. Qed.

Example strip_both_ends : strip (LF :: txt "  ab  c " ++ [CR; LF]) = txt "ab  c".
Proof. reflexivity. Qed.

Example lower_letters : lower (txt "We Use COOKIES [ok]") = txt "we use cookies [ok]".
Proof. reflexivity. Qed.

Example contains_inside : contains (txt "gdpr") (txt "our gdpr notice") = true.
Proof. reflexivity. Qed.

Example clean_example :
  clean_extracted_text
    (txt "  We use cookies here" ++ [CR; LF] ++ txt "Menu" ++ [LF]
     ++ txt "hello  " ++ [LF] ++ txt "log in to your account please now"
     ++ [LF; LF])
  = txt "hello  " ++ [LF] ++ txt "log in to your account please now".
Proof. reflexivity. Qed.

(** ** Facts about characters *)

Lemma linebreak_is_space c : is_linebreak c = true -> is_space c = true.
Proof.
  destruct c as [[] [] [] [] [] [] [] []]; vm_compute; congruence.
Qed.

Lemma lower_char_space c : is_space (lower_char c) = is_space c.
Proof.
  destruct c as [[] [] [] [] [] [] [] []]; reflexivity.
Qed.

Lemma lower_char_idem c : lower_char (lower_char c) = lower_char c.
Proof.
  destruct c as [[] [] [] [] [] [] [] []]; reflexivity.
Qed.

Lemma LF_linebreak : is_linebreak LF = true.
Proof. reflexivity. Qed.

Lemma LF_space : is_space LF = true.
Proof. reflexivity. Qed.

Lemma eqb_space_neq x c :
  is_space x = false -> is_space c = true -> Ascii.eqb x c = false.
Proof.
  intros Hx Hc. destruct (Ascii.eqb_spec x c) as [->|]; congruence.
Qed.

(** ** Facts about whitespace and stripping *)

Lemma lstrip_all_space s : all_space s = true -> lstrip s = [].
Proof.
  induction s as [|c s IH]; simpl; [reflexivity|].
  intros [Hc Hs]%andb_true_iff. rewrite Hc. auto.
Qed.

Lemma lstrip_nil_all_space s : lstrip s = [] -> all_space s = true.
Proof.
  induction s as [|c s IH]; simpl; [reflexivity|].
  destruct (is_space c); simpl; [auto | discriminate].
Qed.

Lemma lstrip_app_space a s : all_space a = true -> lstrip (a ++ s) = lstrip s.
Proof.
  induction a as [|c a IH]; simpl; [reflexivity|].
  intros [Hc Ha]%andb_true_iff. rewrite Hc. auto.
Qed.

Lemma lstrip_app_keep s t : all_space s = false -> lstrip (s ++ t) = lstrip s ++ t.
Proof.
  induction s as [|c s IH]; simpl; [discriminate|].
  destruct (is_space c); simpl; auto.
Qed.

Lemma lstrip_starts_solid s : starts_solid (lstrip s).
Proof.
  induction s as [|c s IH]; simpl; [exact I|].
  destruct (is_space c) eqn:Hc; simpl; auto.
Qed.

Lemma lstrip_solid s : starts_solid s -> lstrip s = s.
Proof. destruct s as [|c s]; simpl; [reflexivity|]. intros ->. reflexivity. Qed.

Lemma lstrip_idem s : lstrip (lstrip s) = lstrip s.
Proof. apply lstrip_solid, lstrip_starts_solid. Qed.

Lemma rstrip_all_space s : all_space s = true -> rstrip s = [].
Proof.
  induction s as [|c s IH]; simpl; [reflexivity|].
  intros [Hc Hs]%andb_true_iff. rewrite (IH Hs), Hc. reflexivity.
Qed.

Lemma rstrip_nil_all_space s : rstrip s = [] -> all_space s = true.
Proof.
  induction s as [|c s IH]; simpl; [reflexivity|].
  destruct (rstrip s) eqn:Hr; [|discriminate].
  destruct (is_space c); simpl; [auto | discriminate].
Qed.

(** One step of [rstrip], by cases on what is left of the tail. *)
Lemma rstrip_cons c s :
  rstrip (c :: s) =
  if all_space s then (if is_space c then [] else [c]) else c :: rstrip s.
Proof.
  simpl. destruct (all_space s) eqn:Hs.
  - rewrite (rstrip_all_space _ Hs). reflexivity.
  - destruct (rstrip s) eqn:Hr; [|reflexivity].
    apply rstrip_nil_all_space in Hr. congruence.
Qed.

Lemma rstrip_starts_solid s : starts_solid s -> starts_solid (rstrip s).
Proof.
  destruct s as [|c s]; [auto|]. simpl starts_solid at 1. intros Hc.
  rewrite rstrip_cons, Hc. destruct (all_space s); exact Hc.
Qed.

Lemma rstrip_idem s : rstrip (rstrip s) = rstrip s.
Proof.
  induction s as [|c s IH]; [reflexivity|].
  rewrite rstrip_cons. destruct (all_space s) eqn:Hs.
  - destruct (is_space c) eqn:Hc; [reflexivity|]. simpl. rewrite Hc. reflexivity.
  - rewrite rstrip_cons, IH.
    destruct (all_space (rstrip s)) eqn:Hr; [|reflexivity].
    apply rstrip_all_space in Hr. rewrite IH in Hr.
    apply rstrip_nil_all_space in Hr. congruence.
Qed.

Lemma rstrip_app_space s b : all_space b = true -> rstrip (s ++ b) = rstrip s.
Proof.
  intros Hb. induction s as [|c s IH]; simpl.
  - apply rstrip_all_space, Hb.
  - rewrite IH. reflexivity.
Qed.

Lemma all_space_app s t : all_space (s ++ t) = all_space s && all_space t.
Proof. apply forallb_app. Qed.

Lemma all_space_rev s : all_space (rev s) = all_space s.
Proof.
  induction s as [|c s IH]; [reflexivity|].
  simpl rev. rewrite all_space_app, IH. simpl. rewrite andb_true_r. apply andb_comm.
Qed.

(** [rstrip] is [lstrip] read from the other end. *)
Lemma rstrip_rev s : rstrip s = rev (lstrip (rev s)).
Proof.
  induction s as [|c s IH]; [reflexivity|].
  rewrite rstrip_cons. simpl rev. destruct (all_space s) eqn:Hs.
  - rewrite lstrip_app_space by now rewrite all_space_rev.
    simpl. destruct (is_space c); reflexivity.
  - rewrite lstrip_app_keep by now rewrite all_space_rev.
    rewrite rev_app_distr, <- IH. reflexivity.
Qed.

Lemma lstrip_rstrip s : lstrip (rstrip s) = rstrip (lstrip s).
Proof.
  induction s as [|c s IH]; [reflexivity|].
  destruct (is_space c) eqn:Hc.
  - change (lstrip (c :: s)) with (if is_space c then lstrip s else c :: s).
    rewrite Hc, <- IH, rstrip_cons, Hc.
    destruct (all_space s) eqn:Hs.
    + rewrite (rstrip_all_space _ Hs). reflexivity.
    + simpl. rewrite Hc. reflexivity.
  - change (lstrip (c :: s)) with (if is_space c then lstrip s else c :: s).
    rewrite Hc. apply lstrip_solid, rstrip_starts_solid. exact Hc.
Qed.

Lemma strip_idem s : strip (strip s) = strip s.
Proof.
  unfold strip. rewrite lstrip_rstrip, lstrip_idem. apply rstrip_idem.
Qed.

Lemma strip_lstrip s : strip (lstrip s) = strip s.
Proof. unfold strip. rewrite lstrip_idem. reflexivity. Qed.

Lemma strip_rstrip s : strip (rstrip s) = strip s.
Proof. unfold strip. rewrite lstrip_rstrip. apply rstrip_idem. Qed.

Lemma strip_app_space s b : all_space b = true -> strip (s ++ b) = strip s.
Proof.
  intros Hb. unfold strip. destruct (all_space s) eqn:Hs.
  - rewrite lstrip_app_space by exact Hs.
    rewrite (lstrip_all_space _ Hb), (lstrip_all_space _ Hs). reflexivity.
  - rewrite lstrip_app_keep by exact Hs. apply rstrip_app_space, Hb.
Qed.

Lemma lower_lstrip s : lower (lstrip s) = lstrip (lower s).
Proof.
  induction s as [|c s IH]; simpl; [reflexivity|].
  rewrite lower_char_space. destruct (is_space c); auto.
Qed.

Lemma lower_all_space s : all_space (lower s) = all_space s.
Proof.
  induction s as [|c s IH]; simpl; [reflexivity|].
  rewrite lower_char_space, IH. reflexivity.
Qed.

Lemma lower_rstrip s : lower (rstrip s) = rstrip (lower s).
Proof.
  induction s as [|c s IH]; [reflexivity|].
  change (lower (c :: s)) with (lower_char c :: lower s).
  rewrite !rstrip_cons, lower_all_space, lower_char_space, <- IH.
  destruct (all_space s), (is_space c); reflexivity.
Qed.

(** ** Facts about words *)

Lemma split_all_space s : all_space s = true -> split s = [].
Proof.
  induction s as [|c s IH]; simpl; [reflexivity|].
  intros [Hc Hs]%andb_true_iff. rewrite Hc. auto.
Qed.

Lemma split_lstrip s : split (lstrip s) = split s.
Proof.
  induction s as [|c s IH]; simpl; [reflexivity|].
  destruct (is_space c) eqn:Hc; [exact IH|]. simpl. rewrite Hc. reflexivity.
Qed.

Lemma at_word_end_all_space s : all_space s = true -> at_word_end s = true.
Proof. destruct s as [|d s]; simpl; [reflexivity|]. intros [H _]%andb_true_iff. exact H. Qed.

Lemma at_word_end_rstrip s :
  all_space s = false -> at_word_end (rstrip s) = at_word_end s.
Proof.
  destruct s as [|d s]; [reflexivity|]. intros H.
  rewrite rstrip_cons. destruct (all_space s) eqn:Hs; [|reflexivity].
  simpl in H. rewrite Hs, andb_true_r in H. rewrite H. reflexivity.
Qed.

Lemma split_rstrip s : split (rstrip s) = split s.
Proof.
  induction s as [|c s IH]; [reflexivity|].
  rewrite rstrip_cons. destruct (all_space s) eqn:Hs.
  - simpl. rewrite (split_all_space _ Hs), (at_word_end_all_space _ Hs).
    destruct (is_space c) eqn:Hc; simpl; [reflexivity|]. rewrite Hc. reflexivity.
  - simpl. rewrite IH, (at_word_end_rstrip _ Hs). reflexivity.
Qed.

Lemma split_strip s : split (strip s) = split s.
Proof. unfold strip. rewrite split_rstrip. apply split_lstrip. Qed.

(** ** Facts about substring search *)

Lemma startswith_nil_r s : startswith s [] = true.
Proof. destruct s; reflexivity. Qed.

Lemma ends_solid_cons x p : p <> [] -> ends_solid (x :: p) = ends_solid p.
Proof. destruct p; [congruence | reflexivity]. Qed.

Lemma startswith_all_space s p :
  all_space s = true -> ends_solid p = true -> p <> [] -> startswith s p = false.
Proof.
  revert p. induction s as [|c s IH]; intros [|x p] Hs Hp Hne; try congruence.
  - reflexivity.
  - simpl in Hs. apply andb_true_iff in Hs as [Hc Hs]. simpl.
    destruct p as [|y p].
    + simpl in Hp. apply negb_true_iff in Hp. rewrite eqb_space_neq; auto.
    + rewrite (IH (y :: p)); auto using andb_false_r; congruence.
Qed.

Lemma contains_nil p : contains p [] = startswith [] p.
Proof. apply orb_false_r. Qed.

Lemma contains_cons p c s :
  contains p (c :: s) = startswith (c :: s) p || contains p s.
Proof. reflexivity. Qed.

Lemma contains_all_space s p :
  all_space s = true -> ends_solid p = true -> p <> [] -> contains p s = false.
Proof.
  intros Hs Hp Hne. induction s as [|c s IH].
  - rewrite contains_nil. apply startswith_all_space; auto.
  - rewrite contains_cons, startswith_all_space by auto. simpl in Hs.
    apply andb_true_iff in Hs as [_ Hs]. auto.
Qed.

Lemma contains_lstrip p s :
  head_solid p = true -> contains p (lstrip s) = contains p s.
Proof.
  intros Hp. induction s as [|c s IH]; [reflexivity|].
  simpl lstrip. destruct (is_space c) eqn:Hc; [|reflexivity].
  rewrite IH, contains_cons. destruct p as [|x p]; [discriminate|]. simpl in Hp.
  apply negb_true_iff in Hp. simpl startswith. rewrite eqb_space_neq; auto.
Qed.

Lemma startswith_rstrip s p :
  ends_solid p = true -> startswith (rstrip s) p = startswith s p.
Proof.
  revert p. induction s as [|c s IH]; intros p Hp; [reflexivity|].
  destruct p as [|x p]; [now rewrite !startswith_nil_r|].
  rewrite rstrip_cons. destruct (all_space s) eqn:Hs.
  - destruct p as [|y p].
    + simpl in Hp. apply negb_true_iff in Hp.
      destruct (is_space c) eqn:Hc; simpl.
      * rewrite eqb_space_neq; auto.
      * now rewrite startswith_nil_r.
    + assert (Hf : startswith s (y :: p) = false)
        by (apply startswith_all_space; auto; congruence).
      simpl in *. rewrite Hf, andb_false_r.
      destruct (is_space c); simpl; [reflexivity | apply andb_false_r].
  - simpl. f_equal. apply IH. destruct p; [reflexivity | exact Hp].
Qed.

Lemma contains_rstrip p s :
  ends_solid p = true -> p <> [] -> contains p (rstrip s) = contains p s.
Proof.
  intros Hp Hne. induction s as [|c s IH]; [reflexivity|].
  rewrite (contains_cons p c s), <- (startswith_rstrip (c :: s) p Hp), rstrip_cons.
  destruct (all_space s) eqn:Hs.
  - rewrite (contains_all_space s p) by auto.
    destruct (is_space c); rewrite ?contains_cons, contains_nil;
      destruct p; try congruence; rewrite ?orb_false_r; reflexivity.
  - rewrite contains_cons, IH. reflexivity.
Qed.

(** ** Facts about lines *)

Lemma after_break_length c s : (length (after_break c s) <= length s)%nat.
Proof.
  destruct s as [|d s]; simpl; [lia|].
  destruct (Ascii.eqb c CR && Ascii.eqb d LF); simpl; lia.
Qed.

Lemma splitlines_break c s :
  is_linebreak c = true -> splitlines (c :: s) = [] :: splitlines (after_break c s).
Proof.
  intros Hc. simpl. rewrite Hc. destruct s as [|d s]; [reflexivity|].
  simpl. destruct (Ascii.eqb c CR && Ascii.eqb d LF); reflexivity.
Qed.

Lemma splitlines_char c s :
  is_linebreak c = false ->
  splitlines (c :: s) =
  match splitlines s with
  | [] => [[c]]
  | l :: ls => (c :: l) :: ls
  end.
Proof. intros Hc. simpl. rewrite Hc. reflexivity. Qed.

(** Induction along the way [splitlines] consumes its argument. *)
Lemma splitlines_ind (P : text -> Prop) :
  P [] ->
  (forall c s, is_linebreak c = true -> P (after_break c s) -> P (c :: s)) ->
  (forall c s, is_linebreak c = false -> P s -> P (c :: s)) ->
  forall s, P s.
Proof.
  intros Hnil Hbrk Hchr s.
  assert (H : forall n s, (length s <= n)%nat -> P s).
  { clear s. induction n as [|n IH]; intros [|c s] Hlen; simpl in Hlen;
      try exact Hnil; try lia.
    destruct (is_linebreak c) eqn:Hc.
    - apply Hbrk; [exact Hc|]. apply IH.
      pose proof (after_break_length c s). lia.
    - apply Hchr; [exact Hc|]. apply IH. lia. }
  apply (H (length s)). lia.
Qed.

Lemma splitlines_break_free s :
  Forall (fun l => break_free l = true) (splitlines s).
Proof.
  induction s as [| c s Hc IH | c s Hc IH] using splitlines_ind.
  - constructor.
  - rewrite splitlines_break by exact Hc. constructor; [reflexivity | exact IH].
  - rewrite splitlines_char by exact Hc.
    destruct (splitlines s) as [|l ls].
    + repeat constructor. simpl. now rewrite Hc.
    + inversion IH; subst. constructor; [|assumption]. simpl. now rewrite Hc.
Qed.

Lemma splitlines_app_LF l s :
  break_free l = true -> splitlines (l ++ LF :: s) = l :: splitlines s.
Proof.
  induction l as [|c l IH]; simpl app.
  - intros _. rewrite splitlines_break by reflexivity.
    destruct s as [|d s]; reflexivity.
  - intros [Hc Hl]%andb_true_iff. apply negb_true_iff in Hc.
    rewrite splitlines_char, IH by assumption. reflexivity.
Qed.

Lemma splitlines_one_line l :
  break_free l = true -> l <> [] -> splitlines l = [l].
Proof.
  induction l as [|c l IH]; [congruence|].
  intros [Hc Hl]%andb_true_iff _. apply negb_true_iff in Hc.
  rewrite splitlines_char by exact Hc.
  destruct l as [|d l]; [reflexivity|]. rewrite IH; [reflexivity | exact Hl | congruence].
Qed.

Lemma join_cons l m rest : join (l :: m :: rest) = l ++ LF :: join (m :: rest).
Proof. reflexivity. Qed.

Lemma splitlines_join ls :
  Forall (fun l => break_free l = true) ls ->
  splitlines (join ls) = drop_last_empty ls.
Proof.
  induction ls as [|l [|m rest] IH]; intros Hls.
  - reflexivity.
  - inversion Hls; subst. simpl. destruct l as [|c l]; [reflexivity|].
    apply splitlines_one_line; [assumption | congruence].
  - inversion Hls; subst. rewrite join_cons, splitlines_app_LF by assumption.
    rewrite IH by assumption. reflexivity.
Qed.

Lemma drop_last_empty_cases ls :
  drop_last_empty ls = ls \/ ls = drop_last_empty ls ++ [[]].
Proof.
  induction ls as [|l [|m rest] IH].
  - now left.
  - destruct l; [now right | now left].
  - change (drop_last_empty (l :: m :: rest))
      with (l :: drop_last_empty (m :: rest)).
    destruct IH as [IH|IH]; [left; congruence | right].
    rewrite IH at 1. reflexivity.
Qed.

Lemma join_snoc_empty ls :
  join (ls ++ [[]]) = match ls with [] => [] | _ => join ls ++ [LF] end.
Proof.
  induction ls as [|l [|m rest] IH]; [reflexivity | reflexivity |].
  change ((l :: m :: rest) ++ [[]]) with (l :: m :: (rest ++ [[]])).
  rewrite !join_cons. change (m :: rest ++ [[]]) with ((m :: rest) ++ [[]]).
  rewrite IH, <- app_assoc. reflexivity.
Qed.

Lemma strip_join_snoc_empty ls : strip (join (ls ++ [[]])) = strip (join ls).
Proof.
  rewrite join_snoc_empty. destruct ls; [reflexivity|].
  apply strip_app_space. reflexivity.
Qed.

Lemma lstrip_join ls : lstrip (join ls) = join (ltrim ls).
Proof.
  induction ls as [|l [|m rest] IH]; [reflexivity | |].
  - simpl. destruct (all_space l) eqn:Hl; [now apply lstrip_all_space | reflexivity].
  - rewrite join_cons. change (ltrim (l :: m :: rest))
      with (if all_space l then ltrim (m :: rest) else lstrip l :: m :: rest).
    destruct (all_space l) eqn:Hl.
    + rewrite lstrip_app_space by exact Hl. exact IH.
    + rewrite lstrip_app_keep by exact Hl. reflexivity.
Qed.

Lemma all_space_join ls : all_space (join ls) = forallb all_space ls.
Proof.
  induction ls as [|l [|m rest] IH]; [reflexivity | |].
  - simpl. now rewrite andb_true_r.
  - rewrite join_cons. unfold all_space at 1. rewrite forallb_app.
    change (forallb is_space (LF :: join (m :: rest)))
      with (is_space LF && all_space (join (m :: rest))).
    rewrite IH. reflexivity.
Qed.

Lemma rtrim_nil ls : rtrim ls = [] <-> forallb all_space ls = true.
Proof.
  induction ls as [|l rest IH]; simpl; [tauto|].
  destruct (rtrim rest) eqn:Hr.
  - destruct IH as [IH _]. rewrite (IH eq_refl), andb_true_r.
    destruct (all_space l); split; congruence.
  - split; [discriminate|]. intros [_ H]%andb_true_iff.
    apply IH in H. discriminate.
Qed.

Lemma rstrip_app_keep l s :
  all_space s = false -> rstrip (l ++ s) = l ++ rstrip s.
Proof.
  intros Hs. induction l as [|c l IH]; [reflexivity|].
  simpl app. rewrite rstrip_cons. unfold all_space. rewrite forallb_app.
  fold (all_space s). rewrite Hs, andb_false_r. congruence.
Qed.

Lemma rstrip_join ls : rstrip (join ls) = join (rtrim ls).
Proof.
  induction ls as [|l [|m rest] IH]; [reflexivity | |].
  - simpl. destruct (all_space l) eqn:Hl; [now apply rstrip_all_space | reflexivity].
  - rewrite join_cons.
    change (rtrim (l :: m :: rest))
      with (match rtrim (m :: rest) with
            | [] => if all_space l then [] else [rstrip l]
            | r => l :: r
            end).
    destruct (rtrim (m :: rest)) as [|r rs] eqn:Hr.
    + apply rtrim_nil in Hr. rewrite <- all_space_join in Hr.
      rewrite rstrip_app_space by (simpl; exact Hr).
      destruct (all_space l) eqn:Hl; [now apply rstrip_all_space | reflexivity].
    + assert (Hns : all_space (join (m :: rest)) = false).
      { rewrite all_space_join. apply not_true_is_false.
        intros H. apply rtrim_nil in H. congruence. }
      rewrite rstrip_app_keep by (simpl; exact Hns).
      rewrite rstrip_cons, Hns, IH. reflexivity.
Qed.

Lemma strip_join ls : strip (join ls) = join (rtrim (ltrim ls)).
Proof. unfold strip. rewrite lstrip_join. apply rstrip_join. Qed.

Lemma ltrim_Forall (P : text -> Prop) ls :
  (forall l, P l -> P (lstrip l)) -> Forall P ls -> Forall P (ltrim ls).
Proof.
  intros HP. induction 1 as [|l rest Hl Hrest IH]; simpl; [constructor|].
  destruct (all_space l); [exact IH | constructor; auto].
Qed.

Lemma rtrim_Forall (P : text -> Prop) ls :
  (forall l, P l -> P (rstrip l)) -> Forall P ls -> Forall P (rtrim ls).
Proof.
  intros HP. induction 1 as [|l rest Hl Hrest IH]; simpl; [constructor|].
  destruct (rtrim rest); [|constructor; auto].
  destruct (all_space l); repeat constructor; auto.
Qed.

Lemma rtrim_last_solid ls : drop_last_empty (rtrim ls) = rtrim ls.
Proof.
  induction ls as [|l rest IH]; simpl; [reflexivity|].
  destruct (rtrim rest) as [|r rs] eqn:Hr.
  - destruct (all_space l) eqn:Hl; [reflexivity|]. simpl.
    destruct (rstrip l) eqn:Hrl; [|reflexivity].
    apply rstrip_nil_all_space in Hrl. congruence.
  - change (drop_last_empty (l :: r :: rs)) with (l :: drop_last_empty (r :: rs)).
    now rewrite IH.
Qed.

Lemma break_free_lstrip l : break_free l = true -> break_free (lstrip l) = true.
Proof.
  induction l as [|c l IH]; simpl; [reflexivity|].
  intros H. destruct (is_space c); [|exact H].
  apply andb_true_iff in H as [_ H]. auto.
Qed.

Lemma break_free_rstrip l : break_free l = true -> break_free (rstrip l) = true.
Proof.
  induction l as [|c l IH]; [reflexivity|].
  intros [Hc Hl]%andb_true_iff. rewrite rstrip_cons.
  destruct (all_space l), (is_space c); simpl; rewrite ?Hc; auto.
Qed.

(** ** The line filters do not see surrounding whitespace *)

Lemma cookie_patterns_solid :
  Forall (fun p => head_solid p = true /\ ends_solid p = true) cookie_patterns.
Proof. repeat constructor. Qed.

Lemma existsb_agree {A} (f g : A -> bool) (P : A -> Prop) l :
  Forall P l -> (forall x, P x -> f x = g x) -> existsb f l = existsb g l.
Proof.
  intros Hl Hfg. induction Hl as [|x l Hx _ IH]; simpl; [reflexivity|].
  rewrite (Hfg x Hx), IH. reflexivity.
Qed.

Lemma head_solid_nonempty p : head_solid p = true -> p <> [].
Proof. destruct p; [discriminate | congruence]. Qed.

Lemma is_cookie_line_lstrip l : is_cookie_line (lstrip l) = is_cookie_line l.
Proof.
  unfold is_cookie_line. rewrite split_lstrip, lower_lstrip. f_equal.
  apply (existsb_agree _ _ _ _ cookie_patterns_solid).
  intros p [Hh _]. now apply contains_lstrip.
Qed.

Lemma is_cookie_line_rstrip l : is_cookie_line (rstrip l) = is_cookie_line l.
Proof.
  unfold is_cookie_line. rewrite split_rstrip, lower_rstrip. f_equal.
  apply (existsb_agree _ _ _ _ cookie_patterns_solid).
  intros p [Hh He]. apply contains_rstrip; [exact He | now apply head_solid_nonempty].
Qed.

Lemma is_nav_line_lstrip l : is_nav_line (lstrip l) = is_nav_line l.
Proof. unfold is_nav_line. now rewrite lower_lstrip, strip_lstrip. Qed.

Lemma is_nav_line_rstrip l : is_nav_line (rstrip l) = is_nav_line l.
Proof. unfold is_nav_line. now rewrite lower_rstrip, strip_rstrip. Qed.

Lemma kept_lstrip l : kept l -> kept (lstrip l).
Proof. unfold kept. now rewrite is_cookie_line_lstrip, is_nav_line_lstrip. Qed.

Lemma kept_rstrip l : kept l -> kept (rstrip l).
Proof. unfold kept. now rewrite is_cookie_line_rstrip, is_nav_line_rstrip. Qed.

Lemma filter_all {A} (f : A -> bool) l :
  Forall (fun x => f x = true) l -> List.filter f l = l.
Proof.
  induction 1 as [|x l Hx _ IH]; simpl; [reflexivity|]. now rewrite Hx, IH.
Qed.

Lemma filter_Forall {A} (f : A -> bool) (P : A -> Prop) l :
  Forall P l -> Forall (fun x => P x /\ f x = true) (List.filter f l).
Proof.
  induction 1 as [|x l Hx _ IH]; simpl; [constructor|].
  destruct (f x) eqn:Hf; [constructor; auto | exact IH].
Qed.

Lemma drop_last_empty_Forall (P : text -> Prop) ls :
  Forall P ls -> Forall P (drop_last_empty ls).
Proof.
  intros H. destruct (drop_last_empty_cases ls) as [-> | Heq]; [exact H|].
  rewrite Heq in H. now apply Forall_app in H.
Qed.

(** ** The cleaner as one pass over the lines *)

Lemma filter_nav_drop_last_empty ls :
  strip (join (List.filter keep_nav (drop_last_empty ls)))
  = strip (join (List.filter keep_nav ls)).
Proof.
  destruct (drop_last_empty_cases ls) as [-> | Heq]; [reflexivity|].
  rewrite Heq at 2. rewrite List.filter_app. simpl List.filter.
  change (keep_nav []) with true. cbv iota.
  now rewrite strip_join_snoc_empty.
Qed.

Lemma clean_as_one_pass t :
  clean_extracted_text t = strip (join (surviving_lines t)).
Proof.
  unfold clean_extracted_text, remove_navigation, remove_cookie_banners.
  fold keep_cookie keep_nav. rewrite splitlines_join.
  - apply filter_nav_drop_last_empty.
  - eapply List.Forall_impl; [|apply filter_Forall, splitlines_break_free].
    simpl. tauto.
Qed.

Lemma surviving_lines_kept t :
  Forall (fun l => break_free l = true /\ kept l) (surviving_lines t).
Proof.
  unfold surviving_lines.
  eapply List.Forall_impl;
    [|apply filter_Forall, filter_Forall, splitlines_break_free].
  unfold keep_cookie, keep_nav, kept. simpl.
  intros l [[Hb Hc] Hn]. rewrite negb_true_iff in Hc, Hn. auto.
Qed.

(** A text whose lines are all kept and which [strip] leaves alone
    is a fixed point of the cleaner. *)
Lemma clean_fixed ls :
  Forall (fun l => break_free l = true /\ kept l) ls ->
  drop_last_empty ls = ls ->
  strip (join ls) = join ls ->
  clean_extracted_text (join ls) = join ls.
Proof.
  intros Hls Hlast Hstrip.
  assert (Hbf : Forall (fun l => break_free l = true) ls)
    by (eapply List.Forall_impl; [|exact Hls]; simpl; tauto).
  rewrite clean_as_one_pass. unfold surviving_lines.
  rewrite splitlines_join, Hlast by exact Hbf.
  assert (Hc : List.filter keep_cookie ls = ls).
  { apply filter_all. eapply List.Forall_impl; [|exact Hls].
    unfold keep_cookie, kept. simpl. intros l [_ [-> _]]. reflexivity. }
  assert (Hn : List.filter keep_nav ls = ls).
  { apply filter_all. eapply List.Forall_impl; [|exact Hls].
    unfold keep_nav, kept. simpl. intros l [_ [_ ->]]. reflexivity. }
  rewrite Hc, Hn. exact Hstrip.
Qed.

(** ** The pipeline on examples *)

Example like_underscore : like (txt "%a_c%") (txt "xabcx") = true.
Proof. reflexivity. Qed.

Example like_escaped_underscore :
  like (PERCENT :: txt "a" ++ BACKSLASH :: txt "_c" ++ [PERCENT]) (txt "xabcx") = false
  /\ like (PERCENT :: txt "a" ++ BACKSLASH :: txt "_c" ++ [PERCENT]) (txt "xa_cx") = true.
Proof. split; reflexivity. Qed.

(** One run on an empty table: plain [requests] is blocked, cloudscraper
    gets the article, the row is stored and the URL marked. *)
Example first_run :
  db_urls (db (snd (search_and_scrape lorem_world (txt "cats") empty_state)))
    = [url_a]
  /\ redis (snd (search_and_scrape lorem_world (txt "cats") empty_state))
       !! scraped_key url_a = Some (txt "1", 86407)
  /\ trace (snd (search_and_scrape lorem_world (txt "cats") empty_state))
     = [EvSearch (txt "cats"); EvDbSelect; EvRedisExists (scraped_key url_a);
        EvFetch strategy_requests url_a; EvSleep 1;
        EvFetch strategy_cloudscraper url_a;
        EvDbInsert (Some url_a) true; EvRedisSet (scraped_key url_a) 86400;
        EvRedisSet (scraped_key url_a) 86400; EvSleep 1].
Proof. repeat split. Qed.

(** ** How the monad composes *)

Lemma bind_run {A B} (m : M A) (f : A -> M B) s :
  (m ≫= f) s = f (fst (m s)) (snd (m s)).
Proof. unfold mbind, M_bind. destruct (m s); reflexivity. Qed.

Lemma ret_run {A} (a : A) s : (mret a : M A) s = (a, s).
Proof. reflexivity. Qed.

Lemma for_each_cons {A} (body : A -> M unit) x l s :
  for_each body (x :: l) s = for_each body l (snd (body x s)).
Proof. simpl. now rewrite bind_run. Qed.

Section Respects.
Context (R : State -> State -> Prop) `{!PreOrder R}.

Lemma respects_ret {A} (a : A) : respects R (mret a : M A).
Proof. intros s. reflexivity. Qed.

Lemma respects_bind {A B} (m : M A) (f : A -> M B) :
  respects R m -> (forall a, respects R (f a)) -> respects R (m ≫= f).
Proof.
  intros Hm Hf s. rewrite bind_run. etransitivity; [apply Hm | apply Hf].
Qed.

Lemma respects_for_each {A} (body : A -> M unit) l :
  (forall x, respects R (body x)) -> respects R (for_each body l).
Proof.
  intros Hbody. induction l as [|x l IH]; simpl.
  - apply respects_ret.
  - apply respects_bind; auto.
Qed.
End Respects.

(** ** The frame of every step *)

#[global] Instance frame_preorder K F : PreOrder (frame K F).
Proof.
  split.
  - intros s. split; try done.
    + exists []. now rewrite app_nil_r.
    + exists []. now rewrite app_nil_r.
  - intros s1 s2 s3 [Hn1 Hr1 (e1 & Ht1 & Hf1) (r1 & Hd1) Hu1]
                    [Hn2 Hr2 (e2 & Ht2 & Hf2) (r2 & Hd2) Hu2].
    split.
    + lia.
    + intros k Hk. now rewrite Hr2, Hr1.
    + exists (e1 ++ e2). rewrite Ht2, Ht1, app_assoc. split; [done|].
      now apply Forall_app.
    + destruct Hd1 as [Hd1 Hx1], Hd2 as [Hd2 Hx2].
      exists (r1 ++ r2). rewrite Hd2, Hd1, app_assoc. split; [done|].
      now apply Forall_app.
    + auto.
Qed.

(** A step that only returns a value changes nothing. *)
Ltac returns := apply respects_ret; apply _.


Lemma frame_weaken (K K' F F' : text -> Prop) s s' :
  (forall k, K k -> K' k) -> (forall x, F x -> F' x) ->
  frame K F s s' -> frame K' F' s s'.
Proof.
  intros HK HF [Hn Hr (e & Ht & Hf) (r & Hd & Hx) Hu]. split; auto.
  - exists e. split; [done|]. eapply List.Forall_impl; [|exact Hf].
    simpl. intros ev H strat x Heq. eauto.
  - exists r. split; [done|]. eapply List.Forall_impl; [|exact Hx].
    simpl. intros row H x Heq. eauto.
Qed.

Section Frames.
Context (K F : text -> Prop).

Lemma frame_emit e :
  (forall strat x, e = EvFetch strat x -> F x) -> respects (frame K F) (emit e).
Proof.
  intros He s. split; simpl; try done.
  - exists [e]. split; [done|]. now constructor.
  - exists []. now rewrite app_nil_r.
Qed.

Lemma frame_elapse secs : 0 <= secs -> respects (frame K F) (elapse secs).
Proof.
  intros Hs s. split; simpl; try done; try lia.
  - exists []. now rewrite app_nil_r.
  - exists []. now rewrite app_nil_r.
Qed.

Lemma frame_sleep : respects (frame K F) (sleep 1).
Proof.
  apply respects_bind; [apply _ | |intros _].
  - now apply frame_emit.
  - now apply frame_elapse.
Qed.

Lemma frame_redis_exists key : respects (frame K F) (redis_exists key).
Proof. intros s. now apply frame_emit. Qed.

Lemma frame_redis_get key : respects (frame K F) (redis_get key).
Proof. intros s. now apply frame_emit. Qed.

Lemma frame_redis_set key value ttl :
  K key -> respects (frame K F) (redis_set key value ttl).
Proof.
  intros Hk s. split; simpl; try done.
  - intros k Hnk. apply lookup_insert_ne. congruence.
  - exists [EvRedisSet key ttl]. split; [done|]. now constructor.
  - exists []. now rewrite app_nil_r.
Qed.

Lemma frame_fetch w strat u : F u -> respects (frame K F) (fetch w strat u).
Proof.
  intros Hu s. unfold fetch. cbn [snd].
  apply (respects_bind (frame K F)); [|intros _].
  - apply frame_emit. now intros ? ? [= _ ->].
  - apply frame_elapse. lia.
Qed.

Lemma frame_search w q : respects (frame K F) (search w q).
Proof.
  intros s. unfold search. cbn [snd].
  apply (respects_bind (frame K F)); [|intros _].
  - now apply frame_emit.
  - apply frame_elapse. lia.
Qed.

Lemma frame_select urls : respects (frame K F) (get_existing_urls urls).
Proof. intros s. now apply frame_emit. Qed.

Lemma frame_select_ilike pattern : respects (frame K F) (select_ilike pattern).
Proof. intros s. now apply frame_emit. Qed.

Lemma frame_attempt w strat u : F u -> respects (frame K F) (attempt w strat u).
Proof.
  intros Hu. apply respects_bind; [apply _ | |intros html].
  - now apply frame_fetch.
  - returns.
Qed.

Lemma frame_try_strategies w u strats :
  F u -> respects (frame K F) (try_strategies w u strats).
Proof.
  intros Hu. induction strats as [|strat rest IH]; simpl.
  - returns.
  - apply respects_bind; [apply _ | |intros [article|]].
    + now apply frame_attempt.
    + returns.
    + apply respects_bind; [apply _ | apply frame_sleep | auto].
Qed.

Lemma frame_persist_result w q result content :
  K (scraped_key (url_str (res_url result))) ->
  (forall x, res_url result = Some x -> F x) ->
  respects (frame K F) (persist_result w q result content).
Proof.
  intros Hk HF s. unfold persist_result.
  destruct (commit_ok w s _) eqn:Hok.
  - rewrite bind_run. cbn [fst snd emit].
    unfold redis_set, emit. cbn [snd db redis now trace url new_row].
    split; cbn [db redis now trace]; try done.
    + intros k Hnk. apply lookup_insert_ne. congruence.
    + eexists [_; _]. rewrite <- app_assoc. split; [done|].
      repeat constructor; discriminate.
    + eexists [_]. split; [done|]. repeat constructor. exact HF.
    + unfold db_unique, db_urls. rewrite omap_app. intros Hu.
      apply andb_true_iff in Hok as [_ Hok]. cbn [url new_row] in Hok.
      simpl. destruct (res_url result) as [u|]; [|now rewrite app_nil_r].
      apply negb_true_iff, bool_decide_eq_false in Hok.
      apply NoDup_app. split_and!; [done | | apply NoDup_singleton].
      intros x Hx ->%list_elem_of_singleton. done.
  - now apply frame_emit.
Qed.
End Frames.

Lemma truthy_url_res_url result u : truthy_url result = Some u -> res_url result = Some u.
Proof.
  unfold truthy_url. destruct (res_url result) as [[|c x]|]; congruence.
Qed.

Lemma scraped_key_inj u u' : scraped_key u = scraped_key u' -> u = u'.
Proof. unfold scraped_key. apply app_inv_head. Qed.

Lemma frame_process_result w q existing result u :
  truthy_url result = Some u ->
  respects (frame (eq (scraped_key u)) (eq u)) (process_result w q existing result).
Proof.
  intros Hu. unfold process_result. rewrite Hu.
  pose proof (truthy_url_res_url _ _ Hu) as Hres.
  apply respects_bind; [apply _ | apply frame_redis_exists | intros seen].
  destruct (seen || bool_decide (u ∈ existing)); [returns|].
  apply respects_bind; [apply _ | now apply frame_try_strategies | intros content].
  apply respects_bind; [apply _ | | intros _; apply frame_sleep].
  destruct (negb (contains (txt "Failed") content)); [|returns].
  apply respects_bind; [apply _ | | intros _; now apply frame_redis_set].
  apply frame_persist_result; rewrite Hres; [done | congruence].
Qed.

Lemma frame_process_result_any w q existing result :
  respects (frame anything anything) (process_result w q existing result).
Proof.
  destruct (truthy_url result) as [u|] eqn:Hu.
  - intros s.
    eapply frame_weaken; [| |exact (frame_process_result w q existing result u Hu s)]; done.
  - unfold process_result. rewrite Hu. returns.
Qed.

Lemma frame_search_and_scrape w q :
  respects (frame anything anything) (search_and_scrape w q).
Proof.
  apply respects_bind; [apply _ | apply frame_search | intros [results|]].
  - apply respects_bind; [apply _ | apply frame_select | intros existing].
    apply respects_for_each; [apply _|]. apply frame_process_result_any.
  - returns.
Qed.

Lemma frame_fresh_answer w query :
  respects (frame anything anything) (fresh_answer w query).
Proof.
  apply respects_bind; [apply _ | apply frame_search_and_scrape | intros _].
  apply respects_bind; [apply _ | apply frame_select_ilike | intros results].
  apply respects_bind; [apply _ | | intros _; returns].
  destruct (compress_results results); [returns|].
  now apply frame_redis_set.
Qed.

Lemma frame_scrape_query w q :
  respects (frame anything anything) (scrape_query w q).
Proof.
  unfold scrape_query. destruct (strip (default [] q)) as [|c query].
  { returns. }
  apply respects_bind; [apply _ | apply frame_redis_get | intros cached].
  destruct cached as [[|d data]|]; try apply frame_fresh_answer.
  returns.
Qed.

Lemma frame_serve w requests :
  respects (frame anything anything) (serve w requests).
Proof.
  induction requests as [|[delay q] rest IH]; simpl.
  - returns.
  - apply respects_bind; [apply _ | apply frame_elapse; lia | intros _].
    apply respects_bind; [apply _ | apply frame_scrape_query | intros r].
    apply respects_bind; [apply _ | apply IH | intros rs].
    returns.
Qed.

(** ** Consequences of a frame *)

Lemma fetches_of_app u evs evs' :
  fetches_of u (evs ++ evs') = fetches_of u evs ++ fetches_of u evs'.
Proof. apply omap_app. Qed.

Lemma frame_fetches_of K F s s' u :
  frame K F s s' -> ~ F u -> fetches_of u (trace s') = fetches_of u (trace s).
Proof.
  intros [_ _ (evs & -> & Hevs) _ _] Hu. rewrite fetches_of_app.
  assert (fetches_of u evs = []) as ->; [|apply app_nil_r].
  induction Hevs as [|e evs He _ IH]; [reflexivity|].
  change (e :: evs) with ([e] ++ evs). rewrite fetches_of_app, IH, app_nil_r.
  destruct e as [| strat x | | | | | |]; try reflexivity.
  unfold fetches_of. simpl. case_bool_decide as Hx; [|reflexivity]. subst x.
  destruct Hu. now apply (He strat u).
Qed.

Lemma rows_of_app u rows rows' :
  rows_of u (rows ++ rows') = rows_of u rows ++ rows_of u rows'.
Proof. apply List.filter_app. Qed.

Lemma frame_rows_of K F s s' u :
  frame K F s s' -> ~ F u -> rows_of u (db s') = rows_of u (db s).
Proof.
  intros [_ _ _ (rows & -> & Hrows) _] Hu. rewrite rows_of_app.
  assert (rows_of u rows = []) as ->; [|apply app_nil_r].
  induction Hrows as [|r rows Hr _ IH]; [reflexivity|].
  change (r :: rows) with ([r] ++ rows). rewrite rows_of_app, IH, app_nil_r.
  unfold rows_of. simpl. case_bool_decide as Hx; [|reflexivity].
  destruct Hu. now apply (Hr u).
Qed.

Lemma rows_of_absent u rows : u ∉ db_urls rows -> rows_of u rows = [].
Proof.
  induction rows as [|r rows IH]; [reflexivity|].
  unfold db_urls, rows_of in *. simpl. intros Hu.
  case_bool_decide as Hr.
  - rewrite Hr in Hu. simpl in Hu. destruct Hu. apply list_elem_of_here.
  - apply IH. destruct (url r); simpl in Hu; [|exact Hu].
    intros Hin. apply Hu. now apply list_elem_of_further.
Qed.

Lemma unique_rows_of u rows :
  db_unique rows -> (length (rows_of u rows) <= 1)%nat.
Proof.
  unfold db_unique, db_urls. induction rows as [|r rows IH]; simpl; [lia|].
  intros Hnd. unfold rows_of. simpl. case_bool_decide as Hr.
  - rewrite Hr in Hnd. simpl in Hnd. apply NoDup_cons in Hnd as [Hnot _].
    fold (rows_of u rows). rewrite rows_of_absent by exact Hnot. simpl. lia.
  - apply IH. destruct (url r); simpl in Hnd; [|exact Hnd].
    now apply NoDup_cons in Hnd as [_ Hnd].
Qed.

(** ** The loop skips what is already processed *)

Lemma marked_until_live s u t :
  marked_until s u t -> now s <= t ->
  is_Some (redis_live (redis s) (now s) (scraped_key u)).
Proof.
  intros (v & expiry & Hk & Ht) Hnow. unfold redis_live. rewrite Hk.
  destruct (now s <? expiry) eqn:Hlt; [eauto|]. apply Z.ltb_ge in Hlt. lia.
Qed.

Lemma process_result_skip w q existing result u s :
  truthy_url result = Some u ->
  is_Some (redis_live (redis s) (now s) (scraped_key u)) \/ u ∈ existing ->
  process_result w q existing result s
  = (tt, snd (emit (EvRedisExists (scraped_key u)) s)).
Proof.
  intros Hu Hskip. unfold process_result. rewrite Hu, bind_run.
  unfold redis_exists. cbn [fst snd].
  assert (bool_decide (is_Some (redis_live (redis s) (now s) (scraped_key u)))
          || bool_decide (u ∈ existing) = true) as ->; [|reflexivity].
  apply orb_true_iff. destruct Hskip; [left | right]; now apply bool_decide_eq_true.
Qed.

Lemma loop_skips w q existing u results s :
  (forall result, result ∈ results -> truthy_url result = Some u -> u ∈ existing)
  \/ marked_until s u (now (snd (for_each (process_result w q existing) results s))) ->
  fetches_of u (trace (snd (for_each (process_result w q existing) results s)))
    = fetches_of u (trace s)
  /\ rows_of u (db (snd (for_each (process_result w q existing) results s)))
    = rows_of u (db s).
Proof.
  revert s. induction results as [|result rest IH]; intros s Hskip; [done|].
  rewrite for_each_cons in *.
  set (s1 := snd (process_result w q existing result s)) in *.
  pose proof (frame_process_result_any w q existing result s) as Hstep.
  pose proof (respects_for_each (frame anything anything) _ rest
                (frame_process_result_any w q existing) s1) as Hrest.
  fold s1 in Hstep.
  destruct (truthy_url result) as [u'|] eqn:Hu'.
  - destruct (decide (u' = u)) as [->|Hne].
    + assert (Hs1 : s1 = snd (emit (EvRedisExists (scraped_key u)) s)).
      { unfold s1. rewrite (process_result_skip _ _ _ _ u); [done | done |].
        destruct Hskip as [Hex | Hmark].
        - right. apply (Hex result); [apply list_elem_of_here | done].
        - left. eapply marked_until_live; [exact Hmark|].
          pose proof (fr_now _ _ _ _ Hstep). pose proof (fr_now _ _ _ _ Hrest). lia. }
      destruct (IH s1) as [Hf Hr].
      { destruct Hskip as [Hex | Hmark]; [left | right].
        - intros r Hr. apply (Hex r). now apply list_elem_of_further.
        - now rewrite Hs1 in *. }
      rewrite Hf, Hr, Hs1. simpl. split; [|done].
      rewrite fetches_of_app. apply app_nil_r.
    + pose proof (frame_process_result w q existing result u' Hu' s) as Hfr.
      fold s1 in Hfr.
      destruct (IH s1) as [Hf Hr].
      { destruct Hskip as [Hex | (v & expiry & Hk & Ht)]; [left | right].
        - intros r Hr. apply (Hex r). now apply list_elem_of_further.
        - exists v, expiry. split; [|done].
          rewrite (fr_redis _ _ _ _ Hfr); [done|].
          intros Heq%scraped_key_inj. congruence. }
      rewrite Hf, Hr. split.
      * eapply frame_fetches_of; [exact Hfr | congruence].
      * eapply frame_rows_of; [exact Hfr | congruence].
  - assert (Hs1 : s1 = s) by (unfold s1, process_result; now rewrite Hu').
    rewrite Hs1 in *. apply IH.
    destruct Hskip as [Hex | Hmark]; [left | right; done].
    intros r Hr. apply (Hex r). now apply list_elem_of_further.
Qed.

Lemma search_and_scrape_skips w q u s :
  u ∈ db_urls (db s)
  \/ marked_until s u (now (snd (search_and_scrape w q s))) ->
  fetches_of u (trace (snd (search_and_scrape w q s))) = fetches_of u (trace s)
  /\ rows_of u (db (snd (search_and_scrape w q s))) = rows_of u (db s).
Proof.
  unfold search_and_scrape. rewrite bind_run. unfold search at 1 3 5. cbn [fst].
  set (s1 := snd (search w q s)).
  assert (H1 : db s1 = db s /\ redis s1 = redis s
               /\ trace s1 = trace s ++ [EvSearch q]) by done.
  destruct H1 as (Hdb1 & Hredis1 & Htrace1).
  destruct (searxng w (now s) q) as [results|].
  - rewrite bind_run. unfold get_existing_urls at 1 3 5. cbn [fst].
    set (existing := list_to_set _ : gset text).
    set (s2 := snd (get_existing_urls (omap truthy_url results) s1)).
    assert (H2 : db s2 = db s /\ redis s2 = redis s
                 /\ trace s2 = trace s ++ [EvSearch q; EvDbSelect]).
    { unfold s2. simpl. rewrite <- app_assoc. done. }
    destruct H2 as (Hdb2 & Hredis2 & Htrace2).
    intros Hskip.
    destruct (loop_skips w q existing u results s2) as [Hf Hr].
    { destruct Hskip as [Hin | (v & expiry & Hk & Ht)]; [left | right].
      - intros result Hres Hu. unfold existing.
        apply elem_of_list_to_set, list_elem_of_In, filter_In.
        split; [now apply list_elem_of_In; rewrite Hdb1|].
        apply bool_decide_eq_true, list_elem_of_omap. eauto.
      - exists v, expiry. now rewrite Hredis2. }
    rewrite Hf, Hr, Hdb2, Htrace2, fetches_of_app. split; [apply app_nil_r | done].
  - intros _. cbn [snd ret_run]. rewrite ret_run. cbn [snd].
    rewrite Hdb1, Htrace1, fetches_of_app. split; [apply app_nil_r | done].
Qed.

(** ** The chain of strategies *)

Lemma attempt_trace w strat u s :
  trace (snd (attempt w strat u s)) = trace s ++ [EvFetch strat u].
Proof. reflexivity. Qed.

Lemma attempt_valid w strat u s article s' :
  attempt w strat u s = (Some article, s') -> is_valid_content article = true.
Proof.
  unfold attempt. rewrite bind_run, ret_run. intros [= H _]. revert H.
  destruct (_ ≫= extract_article w) as [a|]; [|discriminate].
  destruct (is_valid_content a) eqn:Hv; congruence.
Qed.

Lemma sleep_trace secs s : trace (snd (sleep secs s)) = trace s ++ [EvSleep secs].
Proof. reflexivity. Qed.

Lemma try_strategies_cons w u strat rest s :
  try_strategies w u (strat :: rest) s =
  match fst (attempt w strat u s) with
  | Some article => (article, snd (attempt w strat u s))
  | None => try_strategies w u rest (snd (sleep 1 (snd (attempt w strat u s))))
  end.
Proof.
  change (try_strategies w u (strat :: rest) s)
    with ((attempt w strat u ≫= fun r =>
             match r with
             | Some article => mret article
             | None => sleep 1 ;; try_strategies w u rest
             end) s).
  rewrite bind_run. destruct (attempt w strat u s) as [[article|] s1];
    cbn [fst snd]; [reflexivity|].
  now rewrite bind_run.
Qed.

Lemma all_fail_fetches w u strats s s' :
  all_fail w u strats s s' ->
  fetches_of u (trace s') = fetches_of u (trace s) ++ strats.
Proof.
  induction 1 as [s | strat rest s s1 s' Hatt _ IH]; [now rewrite app_nil_r|].
  rewrite IH, sleep_trace, fetches_of_app.
  replace s1 with (snd (attempt w strat u s)) by now rewrite Hatt.
  rewrite attempt_trace, fetches_of_app, <- !app_assoc. f_equal.
  unfold fetches_of. simpl. now rewrite bool_decide_eq_true_2.
Qed.

(** The chain returns at the first strategy that succeeds. *)
Lemma try_strategies_first_success w u pre strat post s s1 s2 article :
  all_fail w u pre s s1 ->
  attempt w strat u s1 = (Some article, s2) ->
  try_strategies w u (pre ++ strat :: post) s = (article, s2)
  /\ fetches_of u (trace s2) = fetches_of u (trace s) ++ pre ++ [strat].
Proof.
  intros Hpre Hatt. split.
  - induction Hpre as [s | st rest s s' s'' Hfail _ IH].
    + simpl app. now rewrite try_strategies_cons, Hatt.
    + simpl app. rewrite try_strategies_cons, Hfail. cbn [fst snd]. auto.
  - replace s2 with (snd (attempt w strat u s1)) by now rewrite Hatt.
    rewrite attempt_trace, fetches_of_app, (all_fail_fetches _ _ _ _ _ Hpre).
    rewrite <- app_assoc. do 2 f_equal.
    unfold fetches_of. simpl. now rewrite bool_decide_eq_true_2.
Qed.

(** The chain answers [FAILED] when every strategy fails. *)
Lemma try_strategies_all_fail w u strats s s' :
  all_fail w u strats s s' -> try_strategies w u strats s = (FAILED, s').
Proof.
  induction 1 as [s | st rest s s1 s' Hfail _ IH]; [reflexivity|].
  rewrite try_strategies_cons, Hfail. exact IH.
Qed.

(** The chain always ends, in one of the two ways. *)
Lemma try_strategies_outcome w u strats s :
  (exists pre strat post s1 article,
      strats = pre ++ strat :: post /\ all_fail w u pre s s1
      /\ attempt w strat u s1 = (Some article, snd (try_strategies w u strats s))
      /\ fst (try_strategies w u strats s) = article)
  \/ (all_fail w u strats s (snd (try_strategies w u strats s))
      /\ fst (try_strategies w u strats s) = FAILED).
Proof.
  revert s. induction strats as [|strat rest IH]; intros s.
  - right. split; [constructor | reflexivity].
  - rewrite try_strategies_cons.
    destruct (attempt w strat u s) as [[article|] s1] eqn:Hatt; cbn [fst snd].
    + left. exists [], strat, rest, s, article. repeat split; [constructor | exact Hatt].
    + destruct (IH (snd (sleep 1 s1)))
        as [(pre & st & post & s2 & article & -> & Hpre & Hatt2 & Hres) | [Hall Hres]].
      * left. exists (strat :: pre), st, post, s2, article.
        repeat split; [econstructor; eauto | exact Hatt2 | exact Hres].
      * right. split; [econstructor; eauto | exact Hres].
Qed.

Lemma FAILED_not_valid : is_valid_content FAILED = false.
Proof. reflexivity. Qed.

(** ** Prefixes and occurrences *)

Lemma startswith_spec s p : startswith s p = true <-> begins_with p s.
Proof.
  unfold begins_with. revert s. induction p as [|x p IH]; intros s.
  - rewrite startswith_nil_r. split; [eauto | done].
  - destruct s as [|c s]; simpl.
    + split; [discriminate | intros [r Hr]; discriminate].
    + rewrite andb_true_iff, IH. split.
      * intros [Hx%Ascii.eqb_eq [r ->]]. subst. eauto.
      * intros [r [= -> ->]]. split; [apply Ascii.eqb_refl | eauto].
Qed.

Lemma contains_spec p s : contains p s = true <-> occurs_in p s.
Proof.
  unfold occurs_in. induction s as [|c s IH].
  - rewrite contains_nil, startswith_spec. unfold begins_with. split.
    + intros [r Hr]. exists [], r. exact Hr.
    + intros (a & b & Hab). destruct a; [|discriminate]. eauto.
  - rewrite contains_cons, orb_true_iff, IH, startswith_spec. unfold begins_with.
    split.
    + intros [[r Hr] | (a & b & ->)]; [exists [], r; exact Hr|].
      exists (c :: a), b. reflexivity.
    + intros (a & b & Hab). destruct a as [|c' a]; [left; eauto|].
      right. injection Hab as -> ->. eauto.
Qed.

Lemma existsb_elem_of {A} (f : A -> bool) (l : list A) :
  existsb f l = true <-> exists x, x ∈ l /\ f x = true.
Proof.
  rewrite existsb_exists. split; intros (x & Hx & Hf); exists x;
    (split; [now apply list_elem_of_In | exact Hf]).
Qed.

Lemma lower_app s t : lower (s ++ t) = lower s ++ lower t.
Proof. apply map_app. Qed.

(** ** Persisting one result *)

Lemma persist_result_committed w q result content u s :
  res_url result = Some u ->
  commit_ok w s (new_row w (now s) q result content) = true ->
  db (snd (persist_result w q result content s))
    = db s ++ [new_row w (now s) q result content]
  /\ redis (snd (persist_result w q result content s)) !! scraped_key u
    = Some (txt "1", now s + 86400)
  /\ trace (snd (persist_result w q result content s))
    = trace s ++ [EvDbInsert (Some u) true; EvRedisSet (scraped_key u) 86400].
Proof.
  intros Hu Hok. unfold persist_result. rewrite Hok, bind_run.
  cbn [url new_row]. rewrite Hu. cbn -[scraped_key txt Z.add].
  split; [done|]. split; [apply lookup_insert_eq | now rewrite <- app_assoc].
Qed.

Lemma persist_result_rolled_back w q result content s :
  commit_ok w s (new_row w (now s) q result content) = false ->
  db (snd (persist_result w q result content s)) = db s
  /\ redis (snd (persist_result w q result content s)) = redis s.
Proof. intros Hok. unfold persist_result. now rewrite Hok. Qed.

Lemma persist_result_now w q result content s :
  now (snd (persist_result w q result content s)) = now s.
Proof. unfold persist_result. now destruct (commit_ok w s _). Qed.

(** ** [ILIKE] with a query that has no metacharacter *)

Lemma like_percent p v :
  like (PERCENT :: p) v
  = like p v || match v with [] => false | _ :: v' => like (PERCENT :: p) v' end.
Proof. destruct v; reflexivity. Qed.

Lemma like_plain_cons c p v :
  plain_char c = true ->
  like (c :: p) v
  = match v with [] => false | d :: v' => Ascii.eqb c d && like p v' end.
Proof.
  unfold plain_char. rewrite negb_true_iff, !orb_false_iff.
  intros [[H1 H2] H3]. simpl. rewrite H1, H2, H3. reflexivity.
Qed.

Lemma like_only_percent v : like [PERCENT] v = true.
Proof.
  induction v as [|c v IH]; [reflexivity|].
  rewrite like_percent, IH. apply orb_true_r.
Qed.

Lemma like_plain_prefix q v :
  plain q = true -> like (q ++ [PERCENT]) v = startswith v q.
Proof.
  revert v. induction q as [|c q IH]; intros v Hq.
  - rewrite startswith_nil_r. apply like_only_percent.
  - simpl in Hq. apply andb_true_iff in Hq as [Hc Hq].
    simpl app. rewrite like_plain_cons by exact Hc.
    destruct v as [|d v]; [reflexivity|]. simpl. now rewrite IH.
Qed.

Lemma like_plain_substring q v :
  plain q = true -> like (PERCENT :: q ++ [PERCENT]) v = contains q v.
Proof.
  intros Hq. induction v as [|c v IH].
  - now rewrite like_percent, contains_nil, like_plain_prefix, orb_false_r.
  - now rewrite like_percent, contains_cons, like_plain_prefix, IH.
Qed.

Lemma plain_char_lower c : plain_char (lower_char c) = plain_char c.
Proof. destruct c as [[] [] [] [] [] [] [] []]; reflexivity. Qed.

Lemma plain_lower q : plain (lower q) = plain q.
Proof.
  induction q as [|c q IH]; simpl; [reflexivity|].
  now rewrite plain_char_lower, IH.
Qed.

(** For a query without metacharacter the selection of the endpoint is the
    selection by substring, whatever the case of the letters. *)
Lemma ilike_plain_substring q v :
  plain q = true ->
  ilike (PERCENT :: q ++ [PERCENT]) v = contains (lower q) (lower v).
Proof.
  intros Hq. unfold ilike. change (lower (PERCENT :: q ++ [PERCENT]))
    with (PERCENT :: lower (q ++ [PERCENT])).
  rewrite lower_app. apply like_plain_substring. now rewrite plain_lower.
Qed.

(** ** The compressed answer *)

Lemma compress_results_unique_lines results :
  compress_results results = join (elements (unique_lines results)).
Proof. reflexivity. Qed.

Lemma elem_of_foldl_lines (acc : gset text) results l :
  l ∈ foldl (fun acc r => acc ∪ list_to_set (splitlines (extracted_content r)))
            acc results
  <-> l ∈ acc \/ exists r, r ∈ results /\ l ∈ splitlines (extracted_content r).
Proof.
  revert acc. induction results as [|r results IH]; intros acc; simpl.
  - split; [auto | intros [H | (r & Hr & _)]; [done | now apply not_elem_of_nil in Hr]].
  - rewrite IH, elem_of_union, elem_of_list_to_set. split.
    + intros [[H | H] | (r' & Hr' & Hl)]; [auto | |].
      * right. exists r. split; [apply list_elem_of_here | done].
      * right. exists r'. split; [now apply list_elem_of_further | done].
    + intros [H | (r' & Hr' & Hl)]; [auto|].
      apply elem_of_cons in Hr' as [-> | Hr']; [auto|]. right. eauto.
Qed.

(** Every line of every selected row is joined into the answer once. *)
Lemma unique_lines_spec results :
  NoDup (elements (unique_lines results))
  /\ forall l, l ∈ elements (unique_lines results)
               <-> exists r, r ∈ results /\ l ∈ splitlines (extracted_content r).
Proof.
  split; [apply NoDup_elements|]. intros l.
  rewrite elem_of_elements. unfold unique_lines.
  rewrite elem_of_foldl_lines.
  split; [intros [H | H]; [now apply not_elem_of_empty in H | exact H] | auto].
Qed.

(** The answer computed for a query without metacharacter joins, once each,
    the lines of the rows whose query field contains it. *)
Lemma fresh_answer_plain w query s :
  plain query = true ->
  fst (fresh_answer w query s)
  = Ok200 query
      (join (elements (unique_lines
         (select_substring query (db (snd (search_and_scrape w query s))))))).
Proof.
  intros Hq. unfold fresh_answer. rewrite !bind_run, ret_run. cbn [fst].
  unfold select_ilike. cbn [fst]. rewrite compress_results_unique_lines.
  do 4 f_equal. unfold select_substring. apply List.filter_ext.
  intros r. now apply ilike_plain_substring.
Qed.

(** The chain reports its failure exactly when every strategy has failed. *)
Lemma try_scrape_reports_failure w u s :
  fst (try_scrape w u s) = FAILED
  <-> all_fail w u (strategies w) s (snd (try_scrape w u s)).
Proof.
  unfold try_scrape. split.
  - intros Hres.
    destruct (try_strategies_outcome w u (strategies w) s)
      as [(pre & st & post & s1 & article & _ & _ & Hatt & Hart) | [Hall _]];
      [|exact Hall].
    apply attempt_valid in Hatt. rewrite <- Hart, Hres in Hatt. discriminate.
  - intros Hall. now rewrite (try_strategies_all_fail _ _ _ _ _ Hall).
Qed.

(** A round that gets an article without the word "Failed" in it stores the
    article, cut to 10000 characters, when the commit goes through, and
    marks the URL. *)
Lemma process_result_persists w q existing result u s :
  truthy_url result = Some u ->
  redis_live (redis s) (now s) (scraped_key u) = None ->
  u ∉ existing ->
  contains (txt "Failed") (fst (try_scrape w u (snd (redis_exists (scraped_key u) s))))
    = false ->
  let s1 := snd (try_scrape w u (snd (redis_exists (scraped_key u) s))) in
  let content := fst (try_scrape w u (snd (redis_exists (scraped_key u) s))) in
  commit_ok w s1 (new_row w (now s1) q result content) = true ->
  db (snd (process_result w q existing result s))
    = db s1 ++ [new_row w (now s1) q result content]
  /\ redis (snd (process_result w q existing result s)) !! scraped_key u
    = Some (txt "1", now s1 + 86400).
Proof.
  intros Hu Hlive Hex Hword s1 content Hok.
  fold content in Hword. unfold process_result. rewrite Hu, bind_run.
  change (fst (redis_exists (scraped_key u) s))
    with (bool_decide (is_Some (redis_live (redis s) (now s) (scraped_key u)))).
  rewrite Hlive.
  rewrite bool_decide_eq_false_2 by (intros [? ?]; discriminate).
  rewrite bool_decide_eq_false_2 by exact Hex. cbn [orb].
  rewrite bind_run. fold s1 content. rewrite Hword. cbn [negb].
  rewrite !bind_run.
  destruct (persist_result_committed w q result content u s1
              (truthy_url_res_url _ _ Hu) Hok) as (Hdb & Hredis & _).
  cbn [snd]. unfold sleep, redis_set, emit, elapse. rewrite !bind_run.
  cbn [fst snd db redis now]. rewrite Hdb, persist_result_now. split; [done|].
  apply lookup_insert_eq.
Qed.

(** The rows "Hello / World" and "World / Foo" compress to the three lines
    once each. *)
Lemma hello_world_foo :
  exists ls, ls ≡ₚ [txt "Hello"; txt "World"; txt "Foo"]
             /\ fst (scrape_query offline_world (Some (txt "greet")) hello_state)
                = Ok200 (txt "greet") (join ls).
Proof.
  exists (elements (unique_lines (db hello_state))). split; [|reflexivity].
  assert (elements (unique_lines (db hello_state))
          = [txt "Foo"; txt "Hello"; txt "World"]) as -> by reflexivity.
  apply (Permutation_cons_append [txt "Hello"; txt "World"] (txt "Foo")).
Qed.

(** ** Words and lines *)

Lemma at_word_end_false_split s : at_word_end s = false -> split s <> [].
Proof.
  destruct s as [|c s]; [discriminate|]. simpl. intros ->.
  destruct (at_word_end s); [discriminate|]. now destruct (split s).
Qed.

Lemma split_cons_solid c s :
  is_space c = false ->
  split (c :: s) =
  if at_word_end s then [c] :: split s
  else match split s with
       | [] => [[c]]
       | w :: ws => (c :: w) :: ws
       end.
Proof. intros Hc. simpl. now rewrite Hc. Qed.

Lemma split_app_sep a c b :
  is_space c = true -> split (a ++ c :: b) = split a ++ split b.
Proof.
  intros Hc. induction a as [|x a IH].
  - simpl. now rewrite Hc.
  - simpl app. destruct (is_space x) eqn:Hx.
    + simpl. now rewrite Hx.
    + rewrite !split_cons_solid by exact Hx.
      assert (Hend : at_word_end (a ++ c :: b) = at_word_end a)
        by (destruct a; [exact Hc | reflexivity]).
      rewrite Hend, IH. destruct (at_word_end a) eqn:Ha; [reflexivity|].
      apply at_word_end_false_split in Ha. now destruct (split a).
Qed.

Lemma split_join ls : split (join ls) = concat (split <$> ls).
Proof.
  induction ls as [|l [|m rest] IH]; [reflexivity | |].
  - simpl. now rewrite app_nil_r.
  - rewrite join_cons, split_app_sep, IH by reflexivity. reflexivity.
Qed.

Lemma splitlines_head_word_end s l ls :
  splitlines s = l :: ls -> at_word_end s = at_word_end l.
Proof.
  destruct s as [|c s]; [discriminate|]. simpl.
  destruct (is_linebreak c) eqn:Hc.
  - intros [= <- _]. now apply linebreak_is_space.
  - destruct (splitlines s); now intros [= <- _].
Qed.

Lemma splitlines_nil s : splitlines s = [] -> s = [].
Proof.
  destruct s as [|c s]; [reflexivity|]. simpl.
  destruct (is_linebreak c); [discriminate|]. now destruct (splitlines s).
Qed.

Lemma split_after_break c s :
  is_linebreak c = true -> split (after_break c s) = split s.
Proof.
  intros Hc. destruct s as [|d s]; [reflexivity|]. simpl after_break.
  destruct (Ascii.eqb c CR && Ascii.eqb d LF) eqn:Hcr; [|reflexivity].
  apply andb_true_iff in Hcr as [_ ->%Ascii.eqb_eq]. reflexivity.
Qed.

(** The words of a text are the words of its lines. *)
Lemma split_splitlines t : split t = concat (split <$> splitlines t).
Proof.
  induction t as [| c s Hc IH | c s Hc IH] using splitlines_ind.
  - reflexivity.
  - rewrite splitlines_break, fmap_cons, concat_cons, <- IH by exact Hc.
    rewrite split_after_break by exact Hc. simpl.
    now rewrite (linebreak_is_space _ Hc).
  - rewrite splitlines_char by exact Hc.
    destruct (splitlines s) as [|l ls] eqn:Hs.
    + apply splitlines_nil in Hs as ->. simpl. now rewrite app_nil_r.
    + change (concat (split <$> (c :: l) :: ls))
        with (split (c :: l) ++ concat (split <$> ls)).
      change (concat (split <$> l :: ls))
        with (split l ++ concat (split <$> ls)) in IH.
      destruct (is_space c) eqn:Hsp.
      * simpl. now rewrite Hsp.
      * rewrite !split_cons_solid by exact Hsp.
        rewrite (splitlines_head_word_end _ _ _ Hs), IH.
        destruct (at_word_end l) eqn:Hl; [reflexivity|].
        apply at_word_end_false_split in Hl. now destruct (split l).
Qed.

Lemma filter_sublist {A} (f : A -> bool) (l : list A) : List.filter f l `sublist_of` l.
Proof.
  induction l as [|x l IH]; simpl; [constructor|].
  destruct (f x); [now apply sublist_skip | now apply sublist_cons].
Qed.

Lemma concat_sublist {A} (ls ls' : list (list A)) :
  ls `sublist_of` ls' -> concat ls `sublist_of` concat ls'.
Proof.
  induction 1 as [| x l1 l2 _ IH | x l1 l2 _ IH]; simpl.
  - constructor.
  - now apply sublist_app.
  - now apply sublist_inserts_l.
Qed.

Lemma split_lower s : split (lower s) = lower <$> split s.
Proof.
  induction s as [|c s IH]; [reflexivity|].
  change (lower (c :: s)) with (lower_char c :: lower s).
  destruct (is_space c) eqn:Hc.
  - simpl. now rewrite lower_char_space, Hc.
  - rewrite !split_cons_solid by now rewrite ?lower_char_space.
    assert (at_word_end (lower s) = at_word_end s) as ->
      by (destruct s; [reflexivity | apply lower_char_space]).
    rewrite IH. destruct (at_word_end s); [reflexivity|].
    now destruct (split s).
Qed.

Lemma lower_idem s : lower (lower s) = lower s.
Proof.
  induction s as [|c s IH]; [reflexivity|]. simpl. now rewrite lower_char_idem, IH.
Qed.

(** ** Line boundaries of a joined text *)

Lemma lf_only_break_free l : break_free l = true -> lf_only l.
Proof.
  unfold lf_only. induction l as [|c l IH]; [constructor|]. simpl.
  intros [Hc Hl]%andb_true_iff. constructor; [|auto].
  apply negb_true_iff in Hc. congruence.
Qed.

Lemma lf_only_join ls :
  Forall (fun l => break_free l = true) ls -> lf_only (join ls).
Proof.
  unfold lf_only. induction ls as [|l [|m rest] IH]; intros Hls.
  - constructor.
  - inversion Hls; subst. now apply lf_only_break_free.
  - inversion Hls; subst. rewrite join_cons. apply Forall_app. split.
    + now apply lf_only_break_free.
    + constructor; [done|]. now apply IH.
Qed.

(** The cleaner, cleaning once more: used where the result of the cleaner
    is cleaned again. *)
Lemma clean_clean t :
  clean_extracted_text (clean_extracted_text t) = clean_extracted_text t.
Proof.
  rewrite (clean_as_one_pass t), strip_join.
  apply clean_fixed.
  - apply rtrim_Forall.
    { intros l [Hb Hk]. split; [now apply break_free_rstrip | now apply kept_rstrip]. }
    apply ltrim_Forall; [|apply surviving_lines_kept].
    intros l [Hb Hk]. split; [now apply break_free_lstrip | now apply kept_lstrip].
  - apply rtrim_last_solid.
  - rewrite <- strip_join. apply strip_idem.
Qed.

Lemma clean_lines_break_free t :
  exists ls, clean_extracted_text t = join ls
             /\ Forall (fun l => break_free l = true /\ kept l) ls.
Proof.
  exists (rtrim (ltrim (surviving_lines t))). split.
  - now rewrite clean_as_one_pass, strip_join.
  - apply rtrim_Forall.
    { intros l [Hb Hk]. split; [now apply break_free_rstrip | now apply kept_rstrip]. }
    apply ltrim_Forall; [|apply surviving_lines_kept].
    intros l [Hb Hk]. split; [now apply break_free_lstrip | now apply kept_lstrip].
Qed.

Lemma startswith_space_head x s p :
  is_space x = true -> head_solid p = true -> startswith (x :: s) p = false.
Proof.
  intros Hx Hp. destruct p as [|y p]; [discriminate|]. simpl in *.
  apply negb_true_iff in Hp. now rewrite eqb_space_neq.
Qed.

Lemma split_clean_sublist t : split (clean_extracted_text t) `sublist_of` split t.
Proof.
  rewrite clean_as_one_pass, split_strip, split_join, (split_splitlines t).
  apply concat_sublist, fmap_sublist. unfold surviving_lines.
  etransitivity; apply filter_sublist.
Qed.

Lemma word_count_clean t :
  (word_count (clean_extracted_text t) <= word_count t)%nat.
Proof. apply sublist_length, split_clean_sublist. Qed.

Lemma clean_trimmed t : trimmed (clean_extracted_text t).
Proof. unfold trimmed, clean_extracted_text. apply strip_idem. Qed.

Lemma clean_lf_only t : lf_only (clean_extracted_text t).
Proof.
  destruct (clean_lines_break_free t) as (ls & -> & Hls).
  apply lf_only_join. eapply List.Forall_impl; [|exact Hls]. simpl. tauto.
Qed.

(** ** Steps that leave the stores alone *)

#[global] Instance same_stores_preorder : PreOrder same_stores.
Proof.
  split.
  - intros s. repeat split. lia.
  - intros s1 s2 s3 (Hd1 & Hr1 & Hn1) (Hd2 & Hr2 & Hn2).
    repeat split; [congruence | congruence | lia].
Qed.

#[global] Instance same_db_preorder : PreOrder same_db.
Proof. split; [now intros s | intros s1 s2 s3; unfold same_db; congruence]. Qed.

#[global] Instance stores_rows_preorder P : PreOrder (stores_rows P).
Proof.
  split.
  - intros s. exists []. now rewrite app_nil_r.
  - intros s1 s2 s3 (r1 & Hd1 & Hp1) (r2 & Hd2 & Hp2).
    exists (r1 ++ r2). rewrite Hd2, Hd1, app_assoc. split; [done|].
    now apply Forall_app.
Qed.

Lemma same_stores_emit e : respects same_stores (emit e).
Proof. intros s. repeat split. simpl. lia. Qed.

Lemma same_stores_elapse secs : 0 <= secs -> respects same_stores (elapse secs).
Proof. intros Hs s. repeat split. simpl. lia. Qed.

Lemma same_stores_sleep : respects same_stores (sleep 1).
Proof.
  apply respects_bind; [apply _ | apply same_stores_emit | intros _].
  now apply same_stores_elapse.
Qed.

Lemma same_stores_fetch w strat u : respects same_stores (fetch w strat u).
Proof.
  intros s. unfold fetch. cbn [snd].
  apply (respects_bind same_stores); [apply same_stores_emit | intros _].
  apply same_stores_elapse. lia.
Qed.

Lemma same_stores_attempt w strat u : respects same_stores (attempt w strat u).
Proof.
  apply respects_bind; [apply _ | apply same_stores_fetch | intros html].
  apply respects_ret. apply _.
Qed.

Lemma same_stores_try_strategies w u strats :
  respects same_stores (try_strategies w u strats).
Proof.
  induction strats as [|strat rest IH]; simpl.
  - apply respects_ret. apply _.
  - apply respects_bind; [apply _ | apply same_stores_attempt | intros [a|]].
    + apply respects_ret. apply _.
    + apply respects_bind; [apply _ | apply same_stores_sleep | auto].
Qed.

Lemma same_stores_search w q : respects same_stores (search w q).
Proof.
  intros s. unfold search. cbn [snd].
  apply (respects_bind same_stores); [apply same_stores_emit | intros _].
  apply same_stores_elapse. lia.
Qed.

Lemma same_stores_same_db {A} (m : M A) : respects same_stores m -> respects same_db m.
Proof. intros H s. apply H. Qed.

Lemma same_db_stores_rows P {A} (m : M A) :
  respects same_db m -> respects (stores_rows P) m.
Proof. intros H s. exists []. rewrite app_nil_r. split; [apply H | constructor]. Qed.

Lemma same_db_redis_set key v ttl : respects same_db (redis_set key v ttl).
Proof. now intros s. Qed.

(** ** What an attempt hands over *)

Lemma extract_article_cleaned w html a :
  extract_article w html = Some a ->
  exists c, (readability_text w html = Some c \/ full_page_text w html = Some c)
            /\ a = clean_extracted_text c.
Proof.
  unfold extract_article.
  destruct (readability_text w html) as [c|] eqn:Hr.
  - destruct (word_count c <? 50)%nat.
    + destruct (full_page_text w html) as [c'|]; [|discriminate].
      intros [= <-]. eauto.
    + intros [= <-]. eauto.
  - change (word_count [] <? 50)%nat with true. cbv iota.
    destruct (full_page_text w html) as [c'|]; [|discriminate].
    intros [= <-]. eauto.
Qed.

Lemma attempt_article w strat u s a s' :
  attempt w strat u s = (Some a, s') ->
  exists html, http_get w strat (now s) u = Some html
               /\ extract_article w html = Some a
               /\ is_valid_content a = true.
Proof.
  unfold attempt. rewrite bind_run, ret_run. intros [= H _]. revert H.
  change (fst (fetch w strat u s)) with (http_get w strat (now s) u).
  destruct (http_get w strat (now s) u) as [html|]; [|discriminate].
  simpl. destruct (extract_article w html) as [a'|] eqn:He; [|discriminate].
  destruct (is_valid_content a') eqn:Hv; [|discriminate].
  intros [= <-]. eauto.
Qed.

(** ** More on persisting *)

Lemma commit_ok_present w s row u :
  url row = Some u -> u ∈ db_urls (db s) -> commit_ok w s row = false.
Proof.
  intros Hu Hin. unfold commit_ok. rewrite Hu.
  rewrite bool_decide_eq_true_2 by exact Hin. apply andb_false_r.
Qed.

Lemma db_urls_app rows rows' : db_urls (rows ++ rows') = db_urls rows ++ db_urls rows'.
Proof. apply omap_app. Qed.

Lemma elem_of_existing urls s x :
  x ∈ fst (get_existing_urls urls s) <-> x ∈ urls /\ x ∈ db_urls (db s).
Proof.
  unfold get_existing_urls. cbn [fst].
  rewrite elem_of_list_to_set, list_elem_of_In, filter_In, <- list_elem_of_In.
  rewrite bool_decide_eq_true. tauto.
Qed.

(** ** Sets of lines *)


(** ** Redis keys *)

Lemma results_key_not_marker (urls : list text) q : ~ marker_key_of urls (results_key q).
Proof. intros (u & _ & H). discriminate. Qed.

Lemma redis_live_insert r key v expiry t k :
  redis_live (<[key := (v, expiry)]> r) t k
  = if decide (key = k) then (if t <? expiry then Some v else None)
    else redis_live r t k.
Proof.
  unfold redis_live. rewrite lookup_insert. now destruct (decide (key = k)).
Qed.

(** ** The loop over the candidates *)

Lemma respects_for_each_in (R : State -> State -> Prop) `{!PreOrder R} {A}
    (body : A -> M unit) (l : list A) :
  (forall x, x ∈ l -> respects R (body x)) -> respects R (for_each body l).
Proof.
  induction l as [|x l IH]; intros Hbody; simpl.
  - apply respects_ret. apply _.
  - apply respects_bind; [apply _ | apply Hbody, list_elem_of_here | intros _].
    apply IH. intros y Hy. apply Hbody. now apply list_elem_of_further.
Qed.

Lemma search_and_scrape_run w q s :
  search_and_scrape w q s =
  match searxng w (now s) q with
  | None => (tt, snd (search w q s))
  | Some results =>
      for_each
        (process_result w q
           (fst (get_existing_urls (candidates results) (snd (search w q s)))))
        results
        (snd (get_existing_urls (candidates results) (snd (search w q s))))
  end.
Proof.
  unfold search_and_scrape. rewrite bind_run.
  change (fst (search w q s)) with (searxng w (now s) q).
  destruct (searxng w (now s) q); [|reflexivity]. now rewrite bind_run.
Qed.

Lemma before_loop w q urls s :
  db (snd (get_existing_urls urls (snd (search w q s)))) = db s
  /\ redis (snd (get_existing_urls urls (snd (search w q s)))) = redis s
  /\ trace (snd (get_existing_urls urls (snd (search w q s))))
     = trace s ++ [EvSearch q; EvDbSelect].
Proof.
  unfold get_existing_urls, search. cbn [fst snd]. rewrite bind_run.
  cbn. now rewrite <- app_assoc.
Qed.

Lemma candidates_elem result u results :
  result ∈ results -> truthy_url result = Some u -> u ∈ candidates results.
Proof. intros Hr Hu. apply list_elem_of_omap. eauto. Qed.

Lemma frame_loop w q existing results :
  respects (frame (marker_key_of (candidates results)) (fun x => x ∈ candidates results))
           (for_each (process_result w q existing) results).
Proof.
  apply respects_for_each_in; [apply _|]. intros result Hres.
  destruct (truthy_url result) as [u|] eqn:Hu.
  - intros s. eapply frame_weaken;
      [| |exact (frame_process_result w q existing result u Hu s)].
    + intros k <-. exists u. split; [|reflexivity]. eapply candidates_elem; eauto.
    + intros x <-. eapply candidates_elem; eauto.
  - unfold process_result. rewrite Hu. apply respects_ret. apply _.
Qed.

(** The rows a round stores carry the query of the run and the URL of the
    candidate. *)
Lemma stores_rows_process_result w q existing result (P : ScrapedResult -> Prop) :
  (forall t content, P (new_row w t q result content)) ->
  respects (stores_rows P) (process_result w q existing result).
Proof.
  intros HP. unfold process_result. destruct (truthy_url result) as [u|];
    [|apply respects_ret; apply _].
  apply respects_bind; [apply _ | | intros seen].
  { apply same_db_stores_rows. now intros s. }
  destruct (seen || _); [apply respects_ret; apply _|].
  apply respects_bind; [apply _ | | intros content].
  { apply same_db_stores_rows, same_stores_same_db, same_stores_try_strategies. }
  apply respects_bind; [apply _ | | intros _].
  - destruct (negb _); [|apply respects_ret; apply _].
    apply respects_bind; [apply _ | | intros _].
    + intros s. unfold persist_result. destruct (commit_ok w s _).
      * exists [new_row w (now s) q result content]. split; [reflexivity|].
        repeat constructor. apply HP.
      * exists []. now rewrite app_nil_r.
    + apply same_db_stores_rows, same_db_redis_set.
  - apply same_db_stores_rows, same_stores_same_db, same_stores_sleep.
Qed.

Lemma for_each_no_url w q existing results s :
  candidates results = [] ->
  for_each (process_result w q existing) results s = (tt, s).
Proof.
  induction results as [|result rest IH]; [reflexivity|].
  intros Hc. rewrite for_each_cons. unfold candidates in *. simpl in Hc.
  destruct (truthy_url result) eqn:Hu; [discriminate|].
  unfold process_result at 2. rewrite Hu. now apply IH.
Qed.

(** ** The answer cache *)

Lemma fresh_answer_run w query s :
  fresh_answer w query s =
  let s1 := snd (search_and_scrape w query s) in
  let data := compress_results (fst (select_ilike (PERCENT :: query ++ [PERCENT]) s1)) in
  (Ok200 query data,
   match data with
   | [] => snd (emit EvDbSelect s1)
   | _ :: _ => snd (redis_set (results_key query) data 300 (snd (emit EvDbSelect s1)))
   end).
Proof.
  unfold fresh_answer. rewrite !bind_run, ret_run. cbn zeta.
  change (snd (select_ilike (PERCENT :: query ++ [PERCENT])
                 (snd (search_and_scrape w query s))))
    with (snd (emit EvDbSelect (snd (search_and_scrape w query s)))).
  now destruct (compress_results _).
Qed.

Lemma scrape_query_run w q s :
  scrape_query w (Some q) s =
  match strip q with
  | [] => (Err400, s)
  | _ :: _ =>
      match redis_live (redis s) (now s) (results_key (strip q)) with
      | Some (c :: data) =>
          (Ok200 (strip q) (c :: data),
           snd (emit (EvRedisGet (results_key (strip q))) s))
      | _ => fresh_answer w (strip q)
               (snd (emit (EvRedisGet (results_key (strip q))) s))
      end
  end.
Proof.
  unfold scrape_query. change (default [] (Some q)) with q.
  destruct (strip q) as [|c query]; [reflexivity|]. rewrite bind_run.
  unfold redis_get. cbn [fst snd].
  now destruct (redis_live (redis s) (now s) (results_key (c :: query)))
    as [[|d data]|].
Qed.

Lemma search_and_scrape_keeps_answers w q s q' :
  redis (snd (search_and_scrape w q s)) !! results_key q' = redis s !! results_key q'.
Proof.
  rewrite search_and_scrape_run. destruct (searxng w (now s) q) as [results|];
    [|reflexivity].
  rewrite (fr_redis _ _ _ _ (frame_loop w q _ results _));
    [reflexivity | apply results_key_not_marker].
Qed.

(** ** [LIKE] patterns with metacharacters *)

Lemma like_underscore_cons p v :
  like (UNDERSCORE :: p) v = match v with [] => false | _ :: v' => like p v' end.
Proof. reflexivity. Qed.

Lemma like_percent_here p v : like p v = true -> like (PERCENT :: p) v = true.
Proof. intros H. now rewrite like_percent, H. Qed.

Lemma like_percent_skip p a v :
  like (PERCENT :: p) v = true -> like (PERCENT :: p) (a ++ v) = true.
Proof.
  intros H. induction a as [|c a IH]; [exact H|].
  simpl app. rewrite like_percent, IH. apply orb_true_r.
Qed.

(** A pattern without backslash matches itself. *)
Lemma like_self q p v :
  has_no_backslash q = true -> like p v = true -> like (q ++ p) (q ++ v) = true.
Proof.
  intros Hq Hpv. induction q as [|c q IH]; [exact Hpv|].
  simpl in Hq. apply andb_true_iff in Hq as [Hc Hq]. specialize (IH Hq).
  simpl app. destruct (Ascii.eqb_spec c PERCENT) as [-> | Hp].
  - apply (like_percent_skip _ [PERCENT]). now apply like_percent_here.
  - destruct (Ascii.eqb_spec c UNDERSCORE) as [-> | Hu].
    + now rewrite like_underscore_cons.
    + rewrite like_plain_cons, Ascii.eqb_refl; [exact IH|].
      unfold plain_char. apply Ascii.eqb_neq in Hp, Hu.
      apply negb_true_iff in Hc. now rewrite Hp, Hu, Hc.
Qed.

Lemma has_no_backslash_lower q : has_no_backslash (lower q) = has_no_backslash q.
Proof.
  induction q as [|c q IH]; [reflexivity|]. simpl. rewrite IH. f_equal.
  destruct c as [[] [] [] [] [] [] [] []]; reflexivity.
Qed.

Lemma ilike_contains q v :
  has_no_backslash q = true ->
  contains (lower q) (lower v) = true ->
  ilike (PERCENT :: q ++ [PERCENT]) v = true.
Proof.
  intros Hq (a & b & Hv)%contains_spec. unfold ilike.
  change (lower (PERCENT :: q ++ [PERCENT])) with (PERCENT :: lower (q ++ [PERCENT])).
  rewrite lower_app, Hv. apply like_percent_skip, like_percent_here.
  apply like_self; [now rewrite has_no_backslash_lower | apply like_only_percent].
Qed.

(** ** Previews *)

Lemma preview_short c : (length c <= 500)%nat -> preview c = c.
Proof. intros H. unfold preview. apply Nat.ltb_ge in H. now rewrite H. Qed.

Lemma preview_long c :
  (500 < length c)%nat -> preview c = take 500 c ++ txt "...".
Proof. intros H. unfold preview. apply Nat.ltb_lt in H. now rewrite H. Qed.

Lemma preview_length c : (length (preview c) <= 503)%nat.
Proof.
  destruct (Nat.le_gt_cases (length c) 500) as [H | H].
  - rewrite preview_short by exact H. lia.
  - rewrite preview_long, length_app, length_take by exact H.
    change (length (txt "...")) with 3%nat. lia.
Qed.

Lemma startswith_contains_nil s : contains [] s = true.
Proof. destruct s; reflexivity. Qed.

(** * The properties of the specification *)

(** ** Content Cleaner and quality gate *)

(** C5. Quality gate: [is_valid_content t] (default [min_words=50]) is true
    exactly when [t] has at least 50 words and its lowercased form begins
    with neither "we use cookies" nor "cookie policy"; 60 repetitions of
    "lorem " are valid, and "We use cookies " followed by any words is
    invalid. *)
Theorem quality_gate (t : text) :
  (is_valid_content t = true <->
     (50 <= word_count t)%nat
     /\ ~ begins_with (txt "we use cookies") (lower t)
     /\ ~ begins_with (txt "cookie policy") (lower t))
  /\ is_valid_content (repeated 60 (txt "lorem ")) = true
  /\ is_valid_content (txt "We use cookies " ++ t) = false.
Proof.
  split; [|split; [reflexivity|]].
  - unfold is_valid_content, is_valid_content_min, word_count.
    rewrite andb_true_iff, negb_true_iff, orb_false_iff, Nat.leb_le.
    rewrite <- !startswith_spec, !not_true_iff_false. tauto.
  - unfold is_valid_content, is_valid_content_min.
    assert (startswith (lower (txt "We use cookies " ++ t)) (txt "we use cookies")
            = true) as ->; [|apply andb_false_r].
    apply startswith_spec. rewrite lower_app.
    exists (txt " " ++ lower t). reflexivity.
Qed.

Lemma quality_gate_witness :
  (50 <= word_count lorem60)%nat
  /\ ~ begins_with (txt "we use cookies") (lower lorem60)
  /\ ~ begins_with (txt "cookie policy") (lower lorem60).
Proof. apply (proj1 (proj1 (quality_gate lorem60))). reflexivity. Defined.

(** C6. Cleaner idempotence: cleaning a cleaned text changes nothing. *)
Theorem cleaner_idempotent (t : text) :
  clean_extracted_text (clean_extracted_text t) = clean_extracted_text t.
Proof.
  rewrite (clean_as_one_pass t), strip_join.
  apply clean_fixed.
  - apply rtrim_Forall.
    { intros l [Hb Hk]. split; [now apply break_free_rstrip | now apply kept_rstrip]. }
    apply ltrim_Forall; [|apply surviving_lines_kept].
    intros l [Hb Hk]. split; [now apply break_free_lstrip | now apply kept_lstrip].
  - apply rtrim_last_solid.
  - rewrite <- strip_join. apply strip_idem.
Qed.

(** C9, amended. Cleaner line filters: [clean_extracted_text] drops exactly
    the lines that have fewer than 15 words and in which one of the six
    cookie phrases occurs, whatever the case of the letters (cookie filter,
    first), then exactly the remaining lines whose trimmed lowercase form
    contains one of the four navigation phrases and has at most 5 words;
    the lines that survive are joined with a line feed, whichever boundary
    separated them in the input, and the result is trimmed. *)
Theorem cleaner_line_filters (t line : text) :
  clean_extracted_text t
    = strip (join (List.filter keep_nav (List.filter keep_cookie (splitlines t))))
  /\ (keep_cookie line = false <->
        (word_count line < 15)%nat
        /\ exists pat, pat ∈ cookie_patterns /\ occurs_in pat (lower line))
  /\ (keep_nav line = false <->
        (exists phrase, phrase ∈ nav_phrases
                        /\ occurs_in phrase (strip (lower line)))
        /\ (word_count (strip (lower line)) <= 5)%nat).
Proof.
  split; [apply clean_as_one_pass|]. split.
  - unfold keep_cookie, is_cookie_line, word_count.
    rewrite negb_false_iff, andb_true_iff, Nat.ltb_lt, existsb_elem_of.
    setoid_rewrite contains_spec. reflexivity.
  - unfold keep_nav, is_nav_line, word_count.
    rewrite negb_false_iff, andb_true_iff, Nat.leb_le, existsb_elem_of.
    setoid_rewrite contains_spec. reflexivity.
Qed.

Lemma cleaner_line_filters_witness :
  (word_count (txt "We use cookies") < 15)%nat
  /\ exists pat, pat ∈ cookie_patterns
                 /\ occurs_in pat (lower (txt "We use cookies")).
Proof.
  apply (proj1 (proj1 (proj2 (cleaner_line_filters [] (txt "We use cookies"))))).
  reflexivity.
Defined.

(** C9 as the specification words it fails: joined with the boundaries of
    the input, the two lines of "a CR LF b" would come back as they were. *)
Lemma cleaner_forgets_separators :
  clean_extracted_text (txt "a" ++ [CR; LF] ++ txt "b") = txt "a" ++ [LF] ++ txt "b"
  /\ clean_keeping_separators (txt "a" ++ [CR; LF] ++ txt "b")
     = txt "a" ++ [CR; LF] ++ txt "b"
  /\ clean_extracted_text (txt "a" ++ [CR; LF] ++ txt "b")
     <> clean_keeping_separators (txt "a" ++ [CR; LF] ++ txt "b").
Proof. repeat split. discriminate. Qed.

(** ** Article Extractor *)

(** C8. Two-tier extraction: the readability text is the candidate when that
    path does not raise and gives at least 50 words; when it raises or gives
    fewer than 50 words the text of the whole page is the candidate; the
    candidate goes through the cleaner before it is returned. *)
Theorem extractor_two_tier (w : World) (html c : text) :
  (readability_text w html = Some c -> (50 <= word_count c)%nat ->
     extract_article w html = Some (clean_extracted_text c))
  /\ (readability_text w html = None ->
        extract_article w html = clean_extracted_text <$> full_page_text w html)
  /\ (readability_text w html = Some c -> (word_count c < 50)%nat ->
        extract_article w html = clean_extracted_text <$> full_page_text w html).
Proof.
  unfold extract_article. repeat split.
  - intros -> Hc. apply Nat.ltb_ge in Hc. now rewrite Hc.
  - intros ->. reflexivity.
  - intros -> Hc. apply Nat.ltb_lt in Hc. now rewrite Hc.
Qed.

Lemma extractor_two_tier_witness :
  extract_article readable_world lorem60 = Some (clean_extracted_text lorem60)
  /\ extract_article lorem_world lorem60 = Some (clean_extracted_text lorem60)
  /\ extract_article readable_world (txt "tiny")
     = Some (clean_extracted_text (txt "whole page: tiny")).
Proof.
  split; [|split].
  - apply (proj1 (extractor_two_tier readable_world lorem60 lorem60));
      [reflexivity | vm_compute; lia].
  - apply (proj1 (proj2 (extractor_two_tier lorem_world lorem60 []))).
    reflexivity.
  - apply (proj2 (proj2 (extractor_two_tier readable_world (txt "tiny") (txt "tiny"))));
      [reflexivity | vm_compute; lia].
Defined.

(** ** Fetch Strategy Chain *)

(** C4. Fallback ordering and short-circuit: the strategies are plain
    [requests], then cloudscraper, then the rendered fetch when it is
    available; the chain returns the article of the first strategy that gets
    a valid one, after having run exactly the strategies before it, in
    order; so when plain [requests] yields an article that is not valid and
    cloudscraper a valid one, the result is cloudscraper's article and the
    rendered fetch is never run. *)
Theorem fallback_ordering (w : World) (u : text) (s : State) :
  strategies w
    = [strategy_requests; strategy_cloudscraper]
      ++ (if HAS_REQUESTS_HTML w then [strategy_requests_html] else [])
  /\ (forall pre strat post s1 s2 article,
        strategies w = pre ++ strat :: post ->
        all_fail w u pre s s1 ->
        attempt w strat u s1 = (Some article, s2) ->
        try_scrape w u s = (article, s2)
        /\ fetches_of u (trace s2) = fetches_of u (trace s) ++ pre ++ [strat])
  /\ (forall html1 a1 html2 a2,
        http_get w strategy_requests (now s) u = Some html1 ->
        extract_article w html1 = Some a1 ->
        is_valid_content a1 = false ->
        http_get w strategy_cloudscraper
                 (now s + Z.of_nat (latency w (now s)) + 1) u = Some html2 ->
        extract_article w html2 = Some a2 ->
        is_valid_content a2 = true ->
        fst (try_scrape w u s) = a2
        /\ fetches_of u (trace (snd (try_scrape w u s)))
           = fetches_of u (trace s) ++ [strategy_requests; strategy_cloudscraper]).
Proof.
  split; [reflexivity|]. split.
  - intros pre strat post s1 s2 article Hs Hpre Hatt. unfold try_scrape.
    rewrite Hs. eapply try_strategies_first_success; eauto.
  - intros html1 a1 html2 a2 H1 He1 Hv1 H2 He2 Hv2.
    set (s1 := snd (attempt w strategy_requests u s)).
    assert (Ha1 : attempt w strategy_requests u s = (None, s1)).
    { unfold s1, attempt. rewrite bind_run, ret_run. unfold fetch at 1.
      cbn [fst]. rewrite H1. simpl. now rewrite He1, Hv1. }
    set (s2 := snd (attempt w strategy_cloudscraper u (snd (sleep 1 s1)))).
    assert (Ha2 : attempt w strategy_cloudscraper u (snd (sleep 1 s1))
                  = (Some a2, s2)).
    { unfold s2, attempt. rewrite bind_run, ret_run. unfold fetch at 1.
      cbn [fst]. change (now (snd (sleep 1 s1)))
        with (now s + Z.of_nat (latency w (now s)) + 1).
      rewrite H2. simpl. now rewrite He2, Hv2. }
    destruct (try_strategies_first_success w u [strategy_requests]
                strategy_cloudscraper
                (if HAS_REQUESTS_HTML w then [strategy_requests_html] else [])
                s (snd (sleep 1 s1)) s2 a2) as [Hrun Hfet].
    { econstructor; [exact Ha1 | constructor]. }
    { exact Ha2. }
    unfold try_scrape, strategies. simpl app in *. rewrite Hrun. cbn [fst snd].
    split; [reflexivity | exact Hfet].
Qed.

Lemma fallback_ordering_witness :
  (fst (try_scrape lorem_world url_a empty_state) = clean_extracted_text lorem60
   /\ fetches_of url_a (trace (snd (try_scrape lorem_world url_a empty_state)))
      = [strategy_requests; strategy_cloudscraper])
  /\ try_scrape lorem_world url_a empty_state
     = (clean_extracted_text lorem60,
        snd (attempt lorem_world strategy_cloudscraper url_a
               (snd (sleep 1 (snd (attempt lorem_world strategy_requests url_a
                                     empty_state)))))).
Proof.
  split.
  - apply (proj2 (proj2 (fallback_ordering lorem_world url_a empty_state))
             (txt "blocked") (txt "blocked") lorem60 (clean_extracted_text lorem60));
      reflexivity.
  - apply (proj1 (proj2 (fallback_ordering lorem_world url_a empty_state))
             [strategy_requests] strategy_cloudscraper [strategy_requests_html]
             (snd (sleep 1 (snd (attempt lorem_world strategy_requests url_a
                                   empty_state))))).
    + reflexivity.
    + econstructor; [reflexivity | constructor].
    + reflexivity.
Defined.

(** ** The endpoint *)

(** C10. The query parameter is trimmed before any use: a missing, empty or
    whitespace-only query is answered with the error 400 and nothing else
    happens (no Redis lookup, no pipeline run), and two queries with the same
    trimmed form are processed in the same way; the trimmed form is what the
    cache key and the pipeline get. *)
Theorem query_is_trimmed (w : World) (s : State) (q q' : text) :
  scrape_query w None s = (Err400, s)
  /\ (all_space q = true -> scrape_query w (Some q) s = (Err400, s))
  /\ (strip q = strip q' -> scrape_query w (Some q) s = scrape_query w (Some q') s)
  /\ scrape_query w (Some q) s = scrape_query w (Some (strip q)) s
  /\ (strip q <> [] ->
      exists evs, trace (snd (scrape_query w (Some q) s))
                  = trace s ++ EvRedisGet (results_key (strip q)) :: evs).
Proof.
  split; [reflexivity|]. split; [|split; [|split]].
  - intros Hq. unfold scrape_query. change (default [] (Some q)) with q.
    unfold strip. now rewrite (lstrip_all_space _ Hq).
  - intros Hq. unfold scrape_query.
    change (default [] (Some q)) with q. change (default [] (Some q')) with q'.
    now rewrite Hq.
  - unfold scrape_query. change (default [] (Some q)) with q.
    change (default [] (Some (strip q))) with (strip q). now rewrite strip_idem.
  - intros Hq.
    unfold scrape_query. change (default [] (Some q)) with q.
    destruct (strip q) as [|c query]; [done|].
    rewrite bind_run.
    set (s1 := snd (redis_get (results_key (c :: query)) s)).
    assert (Hrest : forall m : M Response,
               respects (frame anything anything) m ->
               exists evs, trace (snd (m s1))
                           = trace s ++ EvRedisGet (results_key (c :: query)) :: evs).
    { intros m Hm. destruct (Hm s1) as [_ _ (evs & Hevs & _) _ _].
      exists evs. rewrite Hevs. unfold s1. simpl. now rewrite <- app_assoc. }
    destruct (fst (redis_get (results_key (c :: query)) s)) as [[|d data]|];
      apply Hrest; try apply frame_fresh_answer.
    returns.
Qed.

Lemma query_is_trimmed_witness :
  scrape_query offline_world (Some (txt "   ")) abc_state = (Err400, abc_state)
  /\ scrape_query offline_world (Some (txt " abc ")) abc_state
     = scrape_query offline_world (Some (txt "abc")) abc_state.
Proof.
  split.
  - apply (proj1 (proj2 (query_is_trimmed offline_world abc_state (txt "   ") []))).
    reflexivity.
  - apply (proj1 (proj2 (proj2
             (query_is_trimmed offline_world abc_state (txt " abc ") (txt "abc"))))).
    reflexivity.
Defined.

(** ** Deduplication and persistence *)

(** C1, amended. Marker discipline: the 24h marker of a candidate URL [u]
    is set immediately after the row for [u] is committed; a skip decision
    for [u] writes nothing, neither a marker nor a row; when the commit for
    [u] fails the row is dropped, and the loop goes on with the remaining
    candidates whatever a round did. *)
Theorem marker_discipline (w : World) (q : text) (existing : gset text)
    (result : SearchResult) (rest : list SearchResult) (u content : text)
    (s : State) :
  truthy_url result = Some u ->
  (commit_ok w s (new_row w (now s) q result content) = true ->
     db (snd (persist_result w q result content s))
       = db s ++ [new_row w (now s) q result content]
     /\ redis (snd (persist_result w q result content s)) !! scraped_key u
       = Some (txt "1", now s + 86400)
     /\ trace (snd (persist_result w q result content s))
       = trace s ++ [EvDbInsert (Some u) true; EvRedisSet (scraped_key u) 86400])
  /\ (is_Some (redis_live (redis s) (now s) (scraped_key u)) \/ u ∈ existing ->
        db (snd (process_result w q existing result s)) = db s
        /\ redis (snd (process_result w q existing result s)) = redis s
        /\ trace (snd (process_result w q existing result s))
           = trace s ++ [EvRedisExists (scraped_key u)])
  /\ (commit_ok w s (new_row w (now s) q result content) = false ->
        db (snd (persist_result w q result content s)) = db s)
  /\ for_each (process_result w q existing) (result :: rest) s
     = for_each (process_result w q existing) rest
         (snd (process_result w q existing result s)).
Proof.
  intros Hu. split; [|split; [|split]].
  - apply persist_result_committed. now apply truthy_url_res_url.
  - intros Hskip. now rewrite (process_result_skip w q existing result u s Hu Hskip).
  - intros Hok. now apply persist_result_rolled_back.
  - apply for_each_cons.
Qed.

Lemma marker_discipline_witness :
  redis (snd (persist_result lorem_world (txt "cats") result_a lorem60 empty_state))
    !! scraped_key url_a = Some (txt "1", 86400)
  /\ redis (snd (process_result lorem_world (txt "cats") {[url_a]} result_a
                   seen_state)) = redis seen_state
  /\ db (snd (persist_result lorem_world (txt "cats") result_a lorem60 seen_state))
     = db seen_state.
Proof.
  split; [|split].
  - apply (proj1 (marker_discipline lorem_world (txt "cats") ∅ result_a []
                    url_a lorem60 empty_state eq_refl)).
    reflexivity.
  - apply (proj1 (proj2 (marker_discipline lorem_world (txt "cats") {[url_a]}
                           result_a [] url_a lorem60 seen_state eq_refl))).
    right. now apply elem_of_singleton.
  - apply (proj1 (proj2 (proj2 (marker_discipline lorem_world (txt "cats") ∅
                                  result_a [] url_a lorem60 seen_state eq_refl)))).
    reflexivity.
Defined.

(** C1 as stated fails: a URL skipped because its row is already in the
    table gets no marker. *)
Lemma skip_sets_no_marker :
  url_a ∈ db_urls (db seen_state)
  /\ trace (snd (search_and_scrape lorem_world (txt "cats") seen_state))
     = [EvSearch (txt "cats"); EvDbSelect; EvRedisExists (scraped_key url_a)]
  /\ redis_live
       (redis (snd (search_and_scrape lorem_world (txt "cats") seen_state)))
       (now (snd (search_and_scrape lorem_world (txt "cats") seen_state)))
       (scraped_key url_a) = None.
Proof. split; [apply list_elem_of_here|]. split; reflexivity. Qed.

(** The round also sets the marker itself, after [persist_result] has
    returned, and does so when the commit failed (line 213). *)
Lemma failed_commit_still_marks :
  db (snd (search_and_scrape db_down_world (txt "cats") empty_state)) = []
  /\ redis (snd (search_and_scrape db_down_world (txt "cats") empty_state))
       !! scraped_key url_a = Some (txt "1", 86407).
Proof. split; reflexivity. Qed.

(** C2 at the failing input: an article that passes the quality gate and has
    the word "Failed" in it is returned by the chain, and the round neither
    stores nor marks it. *)
Theorem valid_article_with_Failed_is_dropped :
  is_valid_content (clean_extracted_text failed_page) = true
  /\ fst (try_scrape failed_world url_a empty_state)
     = clean_extracted_text failed_page
  /\ db (snd (search_and_scrape failed_world (txt "cats") empty_state)) = []
  /\ redis (snd (search_and_scrape failed_world (txt "cats") empty_state))
       !! scraped_key url_a = None.
Proof. repeat split. Qed.

(** C3. Idempotence of dedup: however many requests are served, a table that
    has at most one row per URL keeps at most one row per URL; a run of the
    pipeline does not fetch, and stores nothing for, a URL that has a row in
    the table or a marker that does not expire during the run; and a round
    of the loop that finds the marker alive or the row in the table does
    nothing but the Redis lookup. *)
Theorem dedup_idempotent (w : World) (requests : list (nat * option text))
    (q u : text) (existing : gset text) (result : SearchResult) (s : State) :
  db_unique (db s) ->
  db_unique (db (snd (serve w requests s)))
  /\ (length (rows_of u (db (snd (serve w requests s)))) <= 1)%nat
  /\ (u ∈ db_urls (db s)
      \/ marked_until s u (now (snd (search_and_scrape w q s))) ->
      fetches_of u (trace (snd (search_and_scrape w q s))) = fetches_of u (trace s)
      /\ rows_of u (db (snd (search_and_scrape w q s))) = rows_of u (db s))
  /\ (truthy_url result = Some u ->
      is_Some (redis_live (redis s) (now s) (scraped_key u)) \/ u ∈ existing ->
      process_result w q existing result s
      = (tt, snd (emit (EvRedisExists (scraped_key u)) s))).
Proof.
  intros Hs.
  pose proof (fr_unique _ _ _ _ (frame_serve w requests s) Hs) as Hs'.
  split; [exact Hs'|]. split; [now apply unique_rows_of|].
  split; [apply search_and_scrape_skips | apply process_result_skip].
Qed.

Lemma dedup_idempotent_witness :
  (length (rows_of url_a
     (db (snd (serve lorem_world
                 [(0%nat, Some (txt "cats")); (400%nat, Some (txt "dogs"))]
                 empty_state)))) <= 1)%nat
  /\ fetches_of url_a
       (trace (snd (search_and_scrape lorem_world (txt "dogs") seen_state)))
     = fetches_of url_a (trace seen_state).
Proof.
  split.
  - apply (dedup_idempotent lorem_world
             [(0%nat, Some (txt "cats")); (400%nat, Some (txt "dogs"))]
             (txt "dogs") url_a ∅ result_a empty_state).
    apply NoDup_nil_2.
  - apply (dedup_idempotent lorem_world [] (txt "dogs") url_a ∅ result_a seen_state).
    + apply NoDup_singleton.
    + left. apply list_elem_of_here.
Defined.

(** ** The compressed answer *)

(** C7 at the failing input: with one row stored under the query "abc", the
    query "a_c" is answered with the lines of that row, although "a_c" does
    not occur in "abc". *)
Theorem underscore_query_matches_other_rows :
  fst (scrape_query offline_world (Some (txt "a_c")) abc_state)
    = Ok200 (txt "a_c") (txt "X")
  /\ select_substring (txt "a_c") (db abc_state) = [].
Proof. split; reflexivity. Qed.

(** * Further properties of the code *)

(** ** The cleaner *)

(** X1. The cleaner only removes: the words of the cleaned text are words of
    the input, in the order of the input, so the cleaned text never has more
    words than the input. *)
Theorem cleaner_only_removes_words (t : text) :
  split (clean_extracted_text t) `sublist_of` split t
  /\ (word_count (clean_extracted_text t) <= word_count t)%nat.
Proof.
  split; [apply split_clean_sublist | apply word_count_clean].
Qed.

(** X2. The shape of a cleaned text: it neither starts nor ends with
    whitespace, its only line boundary is the line feed, and none of its
    lines is one the cookie filter or the navigation filter drops. *)
Theorem cleaned_text_shape (t : text) :
  trimmed (clean_extracted_text t)
  /\ lf_only (clean_extracted_text t)
  /\ Forall (fun l => is_cookie_line l = false /\ is_nav_line l = false)
            (splitlines (clean_extracted_text t)).
Proof.
  split; [|split].
  - apply clean_trimmed.
  - apply clean_lf_only.
  - destruct (clean_lines_break_free t) as (ls & -> & Hls).
    rewrite splitlines_join
      by (eapply List.Forall_impl; [|exact Hls]; simpl; tauto).
    apply drop_last_empty_Forall.
    eapply List.Forall_impl; [|exact Hls]. simpl. intros l [_ Hk]. exact Hk.
Qed.

(** X3. The word-count guards: a line of at least 15 words survives both
    filters whatever phrases it holds, so a text whose lines all have at
    least 15 words only loses the whitespace around it and has its line
    boundaries turned into line feeds. *)
Theorem long_lines_survive (t line : text) :
  ((15 <= word_count line)%nat ->
     is_cookie_line line = false /\ is_nav_line line = false)
  /\ (Forall (fun l => (15 <= word_count l)%nat) (splitlines t) ->
      clean_extracted_text t = strip (join (splitlines t))).
Proof.
  assert (Hguard : forall l, (15 <= word_count l)%nat ->
            is_cookie_line l = false /\ is_nav_line l = false).
  { intros l Hl. unfold is_cookie_line, is_nav_line, word_count in *. split.
    - apply andb_false_iff. left. apply Nat.ltb_ge. exact Hl.
    - apply andb_false_iff. right. apply Nat.leb_gt.
      rewrite split_strip, split_lower, length_fmap. lia. }
  split; [apply Hguard|].
  intros Hall. rewrite clean_as_one_pass. unfold surviving_lines.
  rewrite (filter_all keep_cookie).
  - rewrite (filter_all keep_nav); [reflexivity|].
    eapply List.Forall_impl; [|exact Hall]. simpl. intros l Hl.
    unfold keep_nav. now rewrite (proj2 (Hguard l Hl)).
  - eapply List.Forall_impl; [|exact Hall]. simpl. intros l Hl.
    unfold keep_cookie. now rewrite (proj1 (Hguard l Hl)).
Qed.

Lemma long_lines_survive_witness :
  is_cookie_line (txt "our cookie policy " ++ repeated 15 (txt "lorem ")) = false
  /\ is_nav_line (txt "our cookie policy " ++ repeated 15 (txt "lorem ")) = false.
Proof.
  apply (proj1 (long_lines_survive [] (txt "our cookie policy "
                                        ++ repeated 15 (txt "lorem ")))).
  vm_compute. lia.
Defined.

(** X4. Edges of the quality gate: the case of the letters does not matter,
    and the prefix test looks at the text as it is, so a text that starts
    with a whitespace character is judged by its number of words alone. *)
Theorem quality_gate_edges (t : text) (c : ascii) :
  is_valid_content (lower t) = is_valid_content t
  /\ (is_space c = true ->
      is_valid_content (c :: t) = (50 <=? word_count t)%nat).
Proof.
  unfold is_valid_content, is_valid_content_min, word_count. split.
  - now rewrite lower_idem, split_lower, length_fmap.
  - intros Hc. simpl split. rewrite Hc.
    change (lower (c :: t)) with (lower_char c :: lower t).
    rewrite !startswith_space_head by (now rewrite ?lower_char_space).
    apply andb_true_r.
Qed.

Lemma quality_gate_edges_witness :
  is_valid_content (" "%char :: txt "We use cookies " ++ lorem60) = true.
Proof.
  rewrite (proj2 (quality_gate_edges (txt "We use cookies " ++ lorem60) " "%char));
    reflexivity.
Defined.

(** ** Extraction and the chain of strategies *)

(** X5. What [extract_article] returns is a cleaned text: it is the cleaner's
    result for the readability text or for the text of the whole page, so
    cleaning it again changes nothing, it has no whitespace around it and no
    line boundary but the line feed, and it has no more words than the text
    it was made from. *)
Theorem extracted_article_is_clean (w : World) (html a : text) :
  extract_article w html = Some a ->
  clean_extracted_text a = a
  /\ trimmed a
  /\ lf_only a
  /\ exists c, (readability_text w html = Some c \/ full_page_text w html = Some c)
               /\ a = clean_extracted_text c
               /\ (word_count a <= word_count c)%nat.
Proof.
  intros H. destruct (extract_article_cleaned _ _ _ H) as (c & Hc & ->).
  split; [apply clean_clean|]. split; [apply clean_trimmed|].
  split; [apply clean_lf_only|].
  exists c. split; [exact Hc|]. split; [reflexivity | apply word_count_clean].
Qed.

Lemma extracted_article_is_clean_witness :
  clean_extracted_text (clean_extracted_text lorem60) = clean_extracted_text lorem60.
Proof.
  apply (extracted_article_is_clean lorem_world lorem60 (clean_extracted_text lorem60)).
  reflexivity.
Defined.

(** X6. What [try_scrape] returns: either the sentinel, after every strategy
    of the chain has been run once, in order; or an article that is not the
    sentinel, passes the quality gate (so it has at least 50 words) and is a
    cleaned text. *)
Theorem try_scrape_result (w : World) (u : text) (s : State) :
  (fst (try_scrape w u s) = FAILED
   /\ fetches_of u (trace (snd (try_scrape w u s)))
      = fetches_of u (trace s) ++ strategies w)
  \/ (fst (try_scrape w u s) <> FAILED
      /\ is_valid_content (fst (try_scrape w u s)) = true
      /\ (50 <= word_count (fst (try_scrape w u s)))%nat
      /\ clean_extracted_text (fst (try_scrape w u s)) = fst (try_scrape w u s)).
Proof.
  unfold try_scrape.
  destruct (try_strategies_outcome w u (strategies w) s)
    as [(pre & st & post & s1 & a & _ & _ & Hatt & Ha) | [Hall Hres]].
  - right. rewrite Ha.
    destruct (attempt_article _ _ _ _ _ _ Hatt) as (html & _ & Hex & Hv).
    split; [intros ->; discriminate|]. split; [exact Hv|]. split.
    + unfold is_valid_content, is_valid_content_min in Hv.
      apply andb_true_iff in Hv as [Hv _]. now apply Nat.leb_le in Hv.
    + destruct (extract_article_cleaned _ _ _ Hex) as (c & _ & ->).
      apply clean_clean.
  - left. split; [exact Hres | exact (all_fail_fetches _ _ _ _ _ Hall)].
Qed.

(** X7. What [try_scrape] does: it leaves the table and Redis as they are,
    runs on its URL a prefix of the chain of strategies (at most three) and
    fetches no other URL. *)
Theorem try_scrape_effects (w : World) (u u' : text) (s : State) :
  db (snd (try_scrape w u s)) = db s
  /\ redis (snd (try_scrape w u s)) = redis s
  /\ now s <= now (snd (try_scrape w u s))
  /\ (exists n, fetches_of u (trace (snd (try_scrape w u s)))
                = fetches_of u (trace s) ++ take n (strategies w))
  /\ (length (strategies w) <= 3)%nat
  /\ (u' <> u ->
      fetches_of u' (trace (snd (try_scrape w u s))) = fetches_of u' (trace s)).
Proof.
  destruct (same_stores_try_strategies w u (strategies w) s) as (Hdb & Hredis & Hnow).
  unfold try_scrape. repeat split; try assumption.
  - destruct (try_strategies_outcome w u (strategies w) s)
      as [(pre & st & post & s1 & a & Hs & Hpre & Hatt & _) | [Hall _]].
    + exists (length (pre ++ [st])).
      destruct (try_strategies_first_success w u pre st post s s1 _ a Hpre Hatt)
        as [_ Hf].
      rewrite Hf, Hs. f_equal.
      change (pre ++ st :: post) with (pre ++ [st] ++ post).
      rewrite app_assoc. symmetry. apply take_app_length.
    + exists (length (strategies w)).
      rewrite (all_fail_fetches _ _ _ _ _ Hall), firstn_all. reflexivity.
  - unfold strategies. destruct (HAS_REQUESTS_HTML w); simpl; lia.
  - intros Hne. eapply (frame_fetches_of anything (eq u)).
    + apply frame_try_strategies. reflexivity.
    + congruence.
Qed.

Lemma try_scrape_effects_witness :
  fetches_of (txt "http://b.example/")
    (trace (snd (try_scrape lorem_world url_a empty_state))) = [].
Proof.
  apply (proj2 (proj2 (proj2 (proj2 (proj2
           (try_scrape_effects lorem_world url_a (txt "http://b.example/")
              empty_state)))))).
  discriminate.
Defined.

(** ** Persistence *)



(** X9. The UNIQUE constraint: a result whose URL is already in the table is
    rejected by [persist_result] - no row is added, no marker is set, the
    failed insert is all that happens; a commit that goes through puts the
    URL into the table; and in both cases a table with one row per URL keeps
    one row per URL. *)
Theorem persist_result_unique (w : World) (q : text) (result : SearchResult)
    (content u : text) (s : State) :
  res_url result = Some u ->
  (u ∈ db_urls (db s) ->
     persist_result w q result content s
     = (tt, snd (emit (EvDbInsert (Some u) false) s)))
  /\ (commit_ok w s (new_row w (now s) q result content) = true ->
      (u ∉ db_urls (db s))
      /\ u ∈ db_urls (db (snd (persist_result w q result content s))))
  /\ (db_unique (db s) ->
      db_unique (db (snd (persist_result w q result content s)))).
Proof.
  intros Hu. split; [|split].
  - intros Hin. unfold persist_result.
    rewrite (commit_ok_present w s _ u) by (cbn; assumption).
    cbn [url new_row]. now rewrite Hu.
  - intros Hok. split.
    + intros Hin. rewrite (commit_ok_present w s _ u) in Hok by (cbn; assumption).
      discriminate.
    + destruct (persist_result_committed w q result content u s Hu Hok) as [-> _].
      rewrite db_urls_app. apply elem_of_app. right.
      unfold db_urls. cbn. rewrite Hu. apply list_elem_of_here.
  - apply (fr_unique anything anything).
    apply frame_persist_result; done.
Qed.

Lemma persist_result_unique_witness :
  persist_result lorem_world (txt "dogs") result_a lorem60 seen_state
  = (tt, snd (emit (EvDbInsert (Some url_a) false) seen_state)).
Proof.
  apply (proj1 (persist_result_unique lorem_world (txt "dogs") result_a lorem60
                  url_a seen_state eq_refl)).
  apply list_elem_of_here.
Defined.

(** X10. [get_existing_urls] answers with exactly the given URLs that have
    a row (none for an empty list), reads the table without changing it or
    Redis, and finds a URL right after its row was committed. *)
Theorem existing_urls_lookup (w : World) (q : text) (result : SearchResult)
    (content u x : text) (urls : list text) (s : State) :
  (x ∈ fst (get_existing_urls urls s) <-> x ∈ urls /\ x ∈ db_urls (db s))
  /\ fst (get_existing_urls [] s) = ∅
  /\ db (snd (get_existing_urls urls s)) = db s
  /\ redis (snd (get_existing_urls urls s)) = redis s
  /\ (res_url result = Some u ->
      commit_ok w s (new_row w (now s) q result content) = true ->
      u ∈ urls ->
      u ∈ fst (get_existing_urls urls (snd (persist_result w q result content s)))).
Proof.
  split; [apply elem_of_existing|]. split.
  { apply set_eq. intros y. rewrite elem_of_existing.
    split; [intros [H _]; now apply not_elem_of_nil in H | intros H; now apply not_elem_of_empty in H]. }
  do 2 (split; [reflexivity|]).
  intros Hu Hok Hin. apply elem_of_existing. split; [exact Hin|].
  destruct (persist_result_committed w q result content u s Hu Hok) as [-> _].
  rewrite db_urls_app. apply elem_of_app. right.
  unfold db_urls. cbn. rewrite Hu. apply list_elem_of_here.
Qed.

Lemma existing_urls_lookup_witness :
  url_a ∈ fst (get_existing_urls [url_a]
                 (snd (persist_result lorem_world (txt "cats") result_a lorem60
                         empty_state))).
Proof.
  apply (proj2 (proj2 (proj2 (proj2
           (existing_urls_lookup lorem_world (txt "cats") result_a lorem60
              url_a url_a [url_a] empty_state))))); try reflexivity.
  apply list_elem_of_here.
Defined.





(** ** The core loop *)

(** X13. A run without candidates does nothing: when the SearXNG request
    fails the run ends after it, without reading the table; when the answer
    has no result with a non-empty URL (an empty answer among them) the run
    reads the table once and makes no Redis call and no fetch.  The table
    and Redis are as before in both cases. *)
Theorem run_without_candidates (w : World) (q : text)
    (results : list SearchResult) (s : State) :
  (searxng w (now s) q = None ->
     db (snd (search_and_scrape w q s)) = db s
     /\ redis (snd (search_and_scrape w q s)) = redis s
     /\ trace (snd (search_and_scrape w q s)) = trace s ++ [EvSearch q])
  /\ (searxng w (now s) q = Some results ->
      Forall (fun r => res_url r = None \/ res_url r = Some []) results ->
      db (snd (search_and_scrape w q s)) = db s
      /\ redis (snd (search_and_scrape w q s)) = redis s
      /\ trace (snd (search_and_scrape w q s)) = trace s ++ [EvSearch q; EvDbSelect]).
Proof.
  rewrite search_and_scrape_run. split.
  - intros ->. done.
  - intros -> Hall. rewrite for_each_no_url.
    + cbn [snd]. apply before_loop.
    + clear -Hall. unfold candidates.
      induction Hall as [|r rs Hr _ IH]; [reflexivity|]. simpl.
      unfold truthy_url at 1. now destruct Hr as [-> | ->].
Qed.

Lemma run_without_candidates_witness :
  trace (snd (search_and_scrape offline_world (txt "cats") seen_state))
    = trace seen_state ++ [EvSearch (txt "cats")]
  /\ db (snd (search_and_scrape readable_world (txt "cats") seen_state))
     = db seen_state.
Proof.
  split.
  - apply (proj1 (run_without_candidates offline_world (txt "cats") [] seen_state)).
    reflexivity.
  - apply (proj2 (run_without_candidates readable_world (txt "cats") [] seen_state));
      [reflexivity | constructor].
Defined.

(** X14. A run touches its candidates only: a URL that is not among the
    candidates is not fetched, gets no row and keeps its marker as it was;
    no cached answer is written or removed; and every row the run adds
    carries the query of the run and the URL of one of the candidates. *)
Theorem run_touches_candidates_only (w : World) (q u q' : text)
    (results : list SearchResult) (s : State) :
  searxng w (now s) q = Some results ->
  (u ∉ candidates results ->
     fetches_of u (trace (snd (search_and_scrape w q s))) = fetches_of u (trace s)
     /\ rows_of u (db (snd (search_and_scrape w q s))) = rows_of u (db s)
     /\ redis (snd (search_and_scrape w q s)) !! scraped_key u
        = redis s !! scraped_key u)
  /\ redis (snd (search_and_scrape w q s)) !! results_key q'
     = redis s !! results_key q'
  /\ exists rows,
       db (snd (search_and_scrape w q s)) = db s ++ rows
       /\ Forall (fun r => query r = q
                           /\ exists x, url r = Some x /\ x ∈ candidates results)
                 rows.
Proof.
  intros Hres. split; [|split; [apply search_and_scrape_keeps_answers|]];
    rewrite search_and_scrape_run, Hres.
  - intros Hu.
    set (s2 := snd (get_existing_urls _ _)).
    pose proof (frame_loop w q
      (fst (get_existing_urls (candidates results) (snd (search w q s)))) results s2)
      as Hfr.
    rewrite (frame_fetches_of _ _ _ _ u Hfr Hu), (frame_rows_of _ _ _ _ u Hfr Hu).
    rewrite (fr_redis _ _ _ _ Hfr).
    + destruct (before_loop w q (candidates results) s) as (Hd & Hr & Ht).
      fold s2 in Hd, Hr, Ht. rewrite Hd, Hr, Ht, fetches_of_app.
      now rewrite app_nil_r.
    + intros (x & Hx & ->%scraped_key_inj). contradiction.
  - set (s2 := snd (get_existing_urls _ _)).
    replace (db s) with (db s2) by apply before_loop.
    apply (respects_for_each_in (stores_rows _)).
    intros result Hin. destruct (truthy_url result) as [x|] eqn:Hx.
    + apply stores_rows_process_result. intros t content. split; [reflexivity|].
      exists x. split; [now apply truthy_url_res_url | eapply candidates_elem; eauto].
    + unfold process_result. rewrite Hx. apply respects_ret. apply _.
Qed.

Lemma run_touches_candidates_only_witness :
  redis (snd (search_and_scrape lorem_world (txt "cats") empty_state))
    !! results_key (txt "cats") = redis empty_state !! results_key (txt "cats").
Proof.
  apply (proj1 (proj2 (run_touches_candidates_only lorem_world (txt "cats") []
                         (txt "cats") [result_a] empty_state eq_refl))).
Defined.

(** X15. Politeness: a round that does not skip its candidate ends with the
    pause of one second, so it takes at least one second, and its first call
    after the Redis lookup is the plain [requests] fetch of the candidate. *)
Theorem processed_candidate_pause (w : World) (q u : text) (existing : gset text)
    (result : SearchResult) (s : State) :
  truthy_url result = Some u ->
  redis_live (redis s) (now s) (scraped_key u) = None ->
  u ∉ existing ->
  exists evs,
    trace (snd (process_result w q existing result s))
    = trace s ++ [EvRedisExists (scraped_key u); EvFetch strategy_requests u]
        ++ evs ++ [EvSleep 1]
    /\ now s + 1 <= now (snd (process_result w q existing result s)).
Proof.
  intros Hu Hlive Hex. unfold process_result. rewrite Hu, bind_run.
  change (fst (redis_exists (scraped_key u) s))
    with (bool_decide (is_Some (redis_live (redis s) (now s) (scraped_key u)))).
  rewrite Hlive, bool_decide_eq_false_2 by (intros [? ?]; discriminate).
  rewrite bool_decide_eq_false_2 by exact Hex. cbn [orb].
  rewrite !bind_run.
  set (s0 := snd (redis_exists (scraped_key u) s)).
  set (s1 := snd (attempt w strategy_requests u s0)).
  assert (Htry : frame anything anything s1 (snd (try_scrape w u s0))).
  { unfold try_scrape, strategies. simpl app. rewrite try_strategies_cons. fold s1.
    destruct (fst (attempt w strategy_requests u s0)); [reflexivity|].
    etransitivity; [apply (frame_sleep anything anything)|].
    now apply frame_try_strategies. }
  set (s2 := snd (try_scrape w u s0)) in *.
  set (content := fst (try_scrape w u s0)).
  set (step := (if negb (contains (txt "Failed") content)
                then persist_result w q result content ;;
                     redis_set (scraped_key u) (txt "1") 86400
                else mret tt) : M unit).
  assert (Hstep : respects (frame anything anything) step).
  { unfold step. destruct (negb _); [|returns].
    apply respects_bind; [apply _ | | intros _; now apply frame_redis_set].
    now apply frame_persist_result. }
  assert (Hall : frame anything anything s1 (snd (step s2)))
    by (etransitivity; [exact Htry | apply Hstep]).
  destruct Hall as [Hnow _ (evs & Hevs & _) _ _].
  exists evs. unfold sleep. rewrite bind_run. cbn [snd emit elapse trace now fst].
  rewrite Hevs. unfold s1. rewrite attempt_trace. unfold s0. cbn [redis_exists snd emit trace].
  split; [now rewrite <- !app_assoc|].
  destruct (same_stores_attempt w strategy_requests u s0) as (_ & _ & Hn1).
  fold s1 in Hn1. change (now s0) with (now s) in Hn1. lia.
Qed.

Lemma processed_candidate_pause_witness :
  exists evs,
    trace (snd (process_result lorem_world (txt "cats") ∅ result_a empty_state))
    = trace empty_state
        ++ [EvRedisExists (scraped_key url_a); EvFetch strategy_requests url_a]
        ++ evs ++ [EvSleep 1]
    /\ now empty_state + 1
       <= now (snd (process_result lorem_world (txt "cats") ∅ result_a empty_state)).
Proof.
  apply (processed_candidate_pause lorem_world (txt "cats") url_a ∅ result_a
           empty_state); [reflexivity | reflexivity | apply not_elem_of_empty].
Defined.

(** ** The answer cache of [/scrape] *)

(** X16. A cached answer is served as it is: when Redis holds a non-empty,
    unexpired answer for the trimmed query, the endpoint returns it after the
    Redis lookup and does nothing else - no search, no fetch, no access to
    the table - whatever the table holds by now. *)
Theorem cached_answer_served (w : World) (q data : text) (c : ascii) (s : State) :
  strip q <> [] ->
  redis_live (redis s) (now s) (results_key (strip q)) = Some (c :: data) ->
  scrape_query w (Some q) s
  = (Ok200 (strip q) (c :: data),
     snd (emit (EvRedisGet (results_key (strip q))) s)).
Proof.
  intros Hq Hlive. rewrite scrape_query_run, Hlive.
  now destruct (strip q).
Qed.

(** X17. Freshness of the answer cache: a non-empty answer computed for a
    query is served from the cache to every request for that query that
    arrives less than 300 seconds later, and a request that arrives 300
    seconds later or more runs the pipeline again. *)
Theorem fresh_answer_cached (w w' : World) (q d : text) (delay : Z) (s : State) :
  strip q <> [] ->
  fst (fresh_answer w (strip q) s) = Ok200 (strip q) d ->
  d <> [] ->
  (0 <= delay < 300 ->
     scrape_query w' (Some q) (snd (elapse delay (snd (fresh_answer w (strip q) s))))
     = (Ok200 (strip q) d,
        snd (emit (EvRedisGet (results_key (strip q)))
               (snd (elapse delay (snd (fresh_answer w (strip q) s)))))))
  /\ (300 <= delay ->
      scrape_query w' (Some q) (snd (elapse delay (snd (fresh_answer w (strip q) s))))
      = fresh_answer w' (strip q)
          (snd (emit (EvRedisGet (results_key (strip q)))
                  (snd (elapse delay (snd (fresh_answer w (strip q) s))))))).
Proof.
  intros Hq Hres Hd. rewrite fresh_answer_run in *. cbn zeta in *.
  set (s1 := snd (search_and_scrape w (strip q) s)) in *. clearbody s1.
  set (data := compress_results _) in *. clearbody data.
  cbn [fst] in Hres. injection Hres as ->.
  destruct d as [|c d]; [done|].
  rewrite !scrape_query_run. destruct (strip q) as [|c0 query]; [done|].
  unfold redis_set, elapse, emit. cbn [fst snd redis now].
  rewrite redis_live_insert, decide_True by reflexivity.
  split; intros Hdelay.
  - destruct (_ <? _) eqn:Hlt; [reflexivity|]. apply Z.ltb_ge in Hlt. lia.
  - destruct (_ <? _) eqn:Hlt; [|reflexivity]. apply Z.ltb_lt in Hlt. lia.
Qed.

Lemma fresh_answer_cached_witness :
  scrape_query lorem_world (Some (txt " abc "))
    (snd (elapse 299 (snd (fresh_answer offline_world (strip (txt " abc ")) abc_state))))
  = (Ok200 (strip (txt " abc ")) (txt "X"),
     snd (emit (EvRedisGet (results_key (strip (txt " abc "))))
            (snd (elapse 299
                    (snd (fresh_answer offline_world (strip (txt " abc "))
                            abc_state)))))).
Proof.
  apply (proj1 (fresh_answer_cached offline_world lorem_world (txt " abc ") (txt "X")
                  299 abc_state ltac:(discriminate) eq_refl ltac:(discriminate))).
  lia.
Defined.

Lemma cached_answer_served_witness :
  scrape_query lorem_world (Some (txt "abc"))
    (snd (fresh_answer offline_world (txt "abc") abc_state))
  = (Ok200 (strip (txt "abc")) (txt "X"),
     snd (emit (EvRedisGet (results_key (strip (txt "abc"))))
            (snd (fresh_answer offline_world (txt "abc") abc_state)))).
Proof.
  apply (cached_answer_served lorem_world (txt "abc") [] "X"%char
           (snd (fresh_answer offline_world (txt "abc") abc_state)));
    [discriminate | reflexivity].
Defined.

(** X18. What [/scrape] writes to the answer cache: computing the answer for
    a query leaves the cached answers of all other queries alone, and when
    the answer is empty it caches nothing at all. *)
Theorem answer_cache_writes (w : World) (query q' : text) (s : State) :
  (q' <> query ->
     redis (snd (fresh_answer w query s)) !! results_key q'
     = redis s !! results_key q')
  /\ (fst (fresh_answer w query s) = Ok200 query [] ->
      redis (snd (fresh_answer w query s)) !! results_key q'
      = redis s !! results_key q').
Proof.
  rewrite fresh_answer_run. cbn zeta.
  set (s1 := snd (search_and_scrape w query s)).
  assert (Hs1 : redis s1 !! results_key q' = redis s !! results_key q')
    by apply search_and_scrape_keeps_answers.
  set (data := compress_results _). clearbody data. cbn [fst].
  split.
  - intros Hne. destruct data as [|c d]; [exact Hs1|].
    unfold redis_set, emit. cbn [snd redis].
    rewrite lookup_insert_ne; [exact Hs1|].
    unfold results_key. intros Heq%app_inv_head. congruence.
  - intros [= ->]. exact Hs1.
Qed.

Lemma answer_cache_writes_witness :
  redis (snd (fresh_answer offline_world (txt "abc") abc_state))
    !! results_key (txt "dogs") = redis abc_state !! results_key (txt "dogs")
  /\ redis (snd (fresh_answer offline_world (txt "zzz") abc_state))
       !! results_key (txt "zzz") = redis abc_state !! results_key (txt "zzz").
Proof.
  split.
  - apply (proj1 (answer_cache_writes offline_world (txt "abc") (txt "dogs") abc_state)).
    discriminate.
  - apply (proj2 (answer_cache_writes offline_world (txt "zzz") (txt "zzz") abc_state)).
    reflexivity.
Defined.

(** ** Selection by [ILIKE] *)

(** X19. The selection of the endpoints against the substring match: for a
    query without backslash every row whose query field contains the query,
    whatever the case of the letters, is selected; for a query that has
    neither [%] nor [_] nor backslash the selected rows are exactly those. *)
Theorem ilike_selection (q : text) (r : ScrapedResult) (s : State) :
  (has_no_backslash q = true ->
     r ∈ select_substring q (db s) ->
     r ∈ fst (select_ilike (PERCENT :: q ++ [PERCENT]) s))
  /\ (plain q = true ->
      fst (select_ilike (PERCENT :: q ++ [PERCENT]) s) = select_substring q (db s)).
Proof.
  unfold select_ilike, select_substring. cbn [fst]. split.
  - intros Hq. rewrite !list_elem_of_In, !filter_In.
    intros [Hin Hc]. split; [exact Hin | now apply ilike_contains].
  - intros Hq. apply List.filter_ext. intros r'. now apply ilike_plain_substring.
Qed.

Lemma ilike_selection_witness :
  row_of (txt "100% cotton") url_a (txt "X")
    ∈ fst (select_ilike (PERCENT :: txt "0% C" ++ [PERCENT])
             {| db := [row_of (txt "100% cotton") url_a (txt "X")]; redis := ∅;
                now := 0; trace := [] |}).
Proof.
  apply (proj1 (ilike_selection (txt "0% C") (row_of (txt "100% cotton") url_a (txt "X"))
                  {| db := [row_of (txt "100% cotton") url_a (txt "X")]; redis := ∅;
                     now := 0; trace := [] |})).
  - reflexivity.
  - apply list_elem_of_here.
Defined.

(** ** The endpoint [/results] *)

(** X20. The preview of a stored text: a text of at most 500 characters is
    shown whole; a longer one is cut to its first 500 characters followed by
    three dots, 503 characters in all; the first 500 characters are always
    those of the text, and the preview of a preview is the preview. *)
Theorem preview_spec (content : text) :
  ((length content <= 500)%nat -> preview content = content)
  /\ ((500 < length content)%nat ->
      preview content = take 500 content ++ txt "..."
      /\ length (preview content) = 503%nat)
  /\ take 500 (preview content) = take 500 content
  /\ preview (preview content) = preview content.
Proof.
  assert (Hlong : (500 < length content)%nat ->
            take 500 (take 500 content ++ txt "...") = take 500 content).
  { intros H. rewrite take_app_le by (rewrite length_take; lia).
    apply take_ge. rewrite length_take. lia. }
  split; [apply preview_short|]. split; [|split].
  - intros H. split; [now apply preview_long|].
    rewrite preview_long, length_app, length_take by exact H.
    change (length (txt "...")) with 3%nat. lia.
  - destruct (Nat.le_gt_cases (length content) 500) as [H | H].
    + now rewrite preview_short.
    + rewrite preview_long by exact H. now apply Hlong.
  - destruct (Nat.le_gt_cases (length content) 500) as [H | H].
    + now rewrite !preview_short by (rewrite ?preview_short; assumption).
    + rewrite (preview_long content H).
      rewrite preview_long
        by (rewrite length_app, length_take; change (length (txt "...")) with 3%nat; lia).
      now rewrite Hlong.
Qed.

Lemma preview_spec_witness :
  preview (repeated 101 (txt "lorem ")) = take 500 (repeated 101 (txt "lorem ")) ++ txt "..."
  /\ length (preview (repeated 101 (txt "lorem "))) = 503%nat.
Proof.
  apply (proj1 (proj2 (preview_spec (repeated 101 (txt "lorem "))))).
  vm_compute. lia.
Defined.

(** X21. The listing of [/results]: at most 50 entries, in the order of the
    table, each with a content of at most 503 characters; the table and
    Redis are only read; a missing or empty [q] lists the first 50 rows of
    the whole table, and a [q] without metacharacter the first 50 rows whose
    query field contains it. *)
Theorem results_listing (q : option text) (q1 : text) (s : State) :
  (length (fst (get_results q s)) <= 50)%nat
  /\ Forall (fun v => (length (view_content v) <= 503)%nat) (fst (get_results q s))
  /\ db (snd (get_results q s)) = db s
  /\ redis (snd (get_results q s)) = redis s
  /\ fst (get_results None s) = view_row <$> take 50 (db s)
  /\ fst (get_results (Some []) s) = view_row <$> take 50 (db s)
  /\ (plain q1 = true ->
      fst (get_results (Some q1) s)
      = view_row <$> take 50 (select_substring q1 (db s))).
Proof.
  assert (Hrun : forall q0, fst (get_results q0 s)
            = view_row <$> take 50 (List.filter
                (fun r => ilike (PERCENT :: default [] q0 ++ [PERCENT]) (query r)) (db s))).
  { intros q0. unfold get_results. now rewrite bind_run, ret_run. }
  assert (Hplain : forall q0, plain q0 = true ->
            fst (get_results (Some q0) s)
            = view_row <$> take 50 (select_substring q0 (db s))).
  { intros q0 Hq0. rewrite Hrun. do 2 f_equal. unfold select_substring.
    apply List.filter_ext. intros r. now apply ilike_plain_substring. }
  assert (Hall : select_substring [] (db s) = db s).
  { unfold select_substring. apply filter_all, Forall_forall. intros r _.
    simpl. apply startswith_contains_nil. }
  split; [|split; [|split; [|split; [|split; [|split]]]]].
  - rewrite Hrun, length_fmap, length_take. lia.
  - rewrite Hrun. apply Forall_fmap, Forall_forall. intros r _.
    apply preview_length.
  - unfold get_results. now rewrite bind_run, ret_run.
  - unfold get_results. now rewrite bind_run, ret_run.
  - change (fst (get_results None s)) with (fst (get_results (Some []) s)).
    now rewrite Hplain, Hall.
  - now rewrite Hplain, Hall.
  - apply Hplain.
Qed.

Lemma results_listing_witness :
  fst (get_results (Some (txt "AB")) abc_state)
  = view_row <$> take 50 (select_substring (txt "AB") (db abc_state)).
Proof.
  apply (proj2 (proj2 (proj2 (proj2 (proj2 (proj2
           (results_listing None (txt "AB") abc_state))))))).
  reflexivity.
Defined.

(** ** Serving requests *)


(** ** Rounds that fetch *)

(** X23. A round whose chain finds no valid article writes nothing: the
    table and Redis are as before, so the URL has neither a row nor a new
    marker and a later run tries it again.  The same holds for every text
    with "Failed" in it that the chain may return. *)
Theorem failed_round_writes_nothing (w : World) (q u : text) (existing : gset text)
    (result : SearchResult) (s : State) :
  truthy_url result = Some u ->
  redis_live (redis s) (now s) (scraped_key u) = None ->
  u ∉ existing ->
  contains (txt "Failed")
           (fst (try_scrape w u (snd (redis_exists (scraped_key u) s)))) = true ->
  db (snd (process_result w q existing result s)) = db s
  /\ redis (snd (process_result w q existing result s)) = redis s
  /\ contains (txt "Failed") FAILED = true.
Proof.
  intros Hu Hlive Hex Hword. unfold process_result. rewrite Hu, bind_run.
  change (fst (redis_exists (scraped_key u) s))
    with (bool_decide (is_Some (redis_live (redis s) (now s) (scraped_key u)))).
  rewrite Hlive, bool_decide_eq_false_2 by (intros [? ?]; discriminate).
  rewrite bool_decide_eq_false_2 by exact Hex. cbn [orb].
  rewrite bind_run, Hword. cbn [negb]. rewrite !bind_run, ret_run. cbn [snd].
  destruct (same_stores_try_strategies w u (strategies w)
              (snd (redis_exists (scraped_key u) s))) as (Hdb & Hredis & _).
  unfold try_scrape. split; [exact Hdb|]. split; [exact Hredis | reflexivity].
Qed.

Lemma failed_round_writes_nothing_witness :
  db (snd (process_result offline_world (txt "cats") ∅ result_a empty_state))
    = db empty_state
  /\ redis (snd (process_result offline_world (txt "cats") ∅ result_a empty_state))
     = redis empty_state
  /\ contains (txt "Failed") FAILED = true.
Proof.
  apply (failed_round_writes_nothing offline_world (txt "cats") url_a ∅ result_a
           empty_state); [reflexivity | reflexivity | apply not_elem_of_empty | reflexivity].
Defined.

(** X24. A round that succeeds: when the URL is neither marked nor known to
    be in the table, the chain returns a text without "Failed" in it and the
    commit goes through, the round appends the row with that text (cut to
    10000 characters) under the query of the run and leaves the URL marked
    for 24 hours from the time of the commit; a later round for the same URL
    within that time does nothing but the Redis lookup. *)
Theorem successful_round_stores_and_marks (w : World) (q u : text)
    (existing : gset text) (result : SearchResult) (s : State) :
  truthy_url result = Some u ->
  redis_live (redis s) (now s) (scraped_key u) = None ->
  u ∉ existing ->
  contains (txt "Failed")
           (fst (try_scrape w u (snd (redis_exists (scraped_key u) s)))) = false ->
  commit_ok w (snd (try_scrape w u (snd (redis_exists (scraped_key u) s))))
    (new_row w (now (snd (try_scrape w u (snd (redis_exists (scraped_key u) s)))))
       q result (fst (try_scrape w u (snd (redis_exists (scraped_key u) s))))) = true ->
  db (snd (process_result w q existing result s))
    = db s ++ [new_row w (now (snd (try_scrape w u (snd (redis_exists (scraped_key u) s)))))
                 q result (fst (try_scrape w u (snd (redis_exists (scraped_key u) s))))]
  /\ redis (snd (process_result w q existing result s)) !! scraped_key u
     = Some (txt "1",
             now (snd (try_scrape w u (snd (redis_exists (scraped_key u) s)))) + 86400)
  /\ (forall w' q' existing' s',
        redis s' !! scraped_key u
          = redis (snd (process_result w q existing result s)) !! scraped_key u ->
        now s' < now (snd (try_scrape w u (snd (redis_exists (scraped_key u) s)))) + 86400 ->
        process_result w' q' existing' result s'
        = (tt, snd (emit (EvRedisExists (scraped_key u)) s'))).
Proof.
  intros Hu Hlive Hex Hword Hok.
  destruct (process_result_persists w q existing result u s Hu Hlive Hex Hword Hok)
    as [Hdb Hredis].
  destruct (same_stores_try_strategies w u (strategies w)
              (snd (redis_exists (scraped_key u) s))) as (Hdb0 & _ & _).
  fold (try_scrape w u (snd (redis_exists (scraped_key u) s))) in Hdb0.
  split; [now rewrite Hdb, Hdb0|]. split; [exact Hredis|].
  intros w' q' existing' s' Hsame Hnow. apply process_result_skip; [exact Hu|].
  left. unfold redis_live. rewrite Hsame, Hredis.
  apply Z.ltb_lt in Hnow. rewrite Hnow. eauto.
Qed.

Lemma successful_round_stores_and_marks_witness :
  redis (snd (process_result lorem_world (txt "cats") ∅ result_a empty_state))
    !! scraped_key url_a = Some (txt "1", 86405).
Proof.
  apply (proj1 (proj2 (successful_round_stores_and_marks lorem_world (txt "cats")
                         url_a ∅ result_a empty_state eq_refl eq_refl
                         ltac:(apply not_elem_of_empty) eq_refl eq_refl))).
Defined.

